(** * GJKR distributed key generation: the phase functions of
      [pkg/beacon/relay/gjkr/protocol.go] and their properties.

    The development follows the Go source function by function.  Big
    integers ([*big.Int]) are [Z]; member identifiers are unsigned and are
    kept in [N]; Go maps held in the member state are [gmap]s, and a
    [range] over such a map is a fold over some enumeration of its entries
    (any permutation of [map_to_list]).  A map carried by an inbound message
    is given directly as the list of its entries in the order the judge's
    [range] visits them. *)

From Stdlib Require Import ZArith Znumtheory Zcong Lia.
From stdpp Require Import gmap list.

#[local] Open Scope Z_scope.

(** ** math/big *)

Module big.

(** [Int.Mod]: Euclidean modulus, result in [[0, |y|)].  Go panics for
    [y = 0]; every statement below that depends on the value of a
    reduction carries the hypothesis that the modulus is positive. *)
Definition Mod (x y : Z) : Z := x mod (Z.abs y).

(** [Int.Exp x y m]: [x^y mod |m|]; a modulus that is nil or zero means no
    reduction, and an exponent [y <= 0] gives [x^0].  The nil modulus of
    the source is passed as [0]. *)
Definition Exp (x y m : Z) : Z :=
  let e := Z.max y 0 in
  if m =? 0 then x ^ e else (x ^ e) mod (Z.abs m).

(** [Int.ModInverse g n]: the inverse of [g] in the ring of integers
    modulo [n], in [[0, |n|)]; a negative [g] is first reduced modulo [n];
    nil ([None]) when [g] and [n] are not relatively prime. *)
Definition ModInverse (g n : Z) : option Z :=
  let n := Z.abs n in
  let g := if g <? 0 then g mod n else g in
  if Z.gcd g n =? 1 then Some (Z.invmod g n) else None.

End big.

(** ** Identifiers, configuration, errors *)

Abbreviation MemberID := N.

(** [MemberID.Int()] *)
Definition Int (id : MemberID) : Z := Z.of_N id.

(** [pow(id, y)]: [id^y] with no modulus. *)
Definition pow (id : MemberID) (y : nat) : Z :=
  big.Exp (Int id) (Z.of_nat y) 0.

(** [pedersen.VSS]: the two generators of the commitment scheme. *)
Record VSS := mkVSS { G : Z; H : Z }.

(** [DKG]: the protocol configuration. *)
Record DKG := mkDKG { P : Z; Q : Z; vss : VSS }.

(** Modelled from the spec: [pedersen.VSS.CalculateCommitment] is not part of
    the sources at hand; the specification gives
    [commit(a, b) = G^a * H^b mod P]. *)
Definition CalculateCommitment (v : VSS) (digest r m : Z) : Z :=
  big.Mod (big.Exp (G v) digest m * big.Exp (H v) r m) m.

(** The errors the phase functions build with [fmt.Errorf]; an error that
    wraps another one keeps it as argument. *)
Inductive error : Type :=
  | ErrNoKeyPair (member : MemberID)
  | ErrNoSymmetricKeyForSender (sender : MemberID)
  | ErrCouldNotDecryptShareS
  | ErrCouldNotDecryptShareT
  | ErrCannotFindSharesMessage (sender : MemberID)
  | ErrSelfInDispute
  | ErrNoEphemeralMessage (sender : MemberID)
  | ErrNoPublicKeyForReceiver (receiver : MemberID)
  | ErrNoPeerSharesMessage (sender : MemberID)
  | ErrCannotDecryptShareS
  | ErrCannotDecryptShareT
  | ErrCouldNotRecoverSymmetricKey (cause : error)
  | ErrCouldNotDecryptShares (cause : error)
  | ErrCouldNotDecryptShareSOf (cause : error).

(** Outcome of a call: a value, a returned error, or a run-time panic
    (nil dereference). *)
Inductive result (A : Type) : Type :=
  | Ok (a : A)
  | Err (e : error)
  | Panic.
Arguments Ok {A} a.
Arguments Err {A} e.
Arguments Panic {A}.

(** ** Phase 3: shares and commitments (arithmetic part) *)

(** The loop of [evaluateMemberShare], entered at index [k] with the running
    [result]. *)
Fixpoint evaluateMemberShare_from (cfg : DKG) (memberID : MemberID)
    (k : nat) (coefficients : list Z) (result : Z) : Z :=
  match coefficients with
  | [] => result
  | a :: rest =>
      evaluateMemberShare_from cfg memberID (S k) rest
        (big.Mod (result + a * pow memberID k) (Q cfg))
  end.

Definition evaluateMemberShare (cfg : DKG) (memberID : MemberID)
    (coefficients : list Z) : Z :=
  evaluateMemberShare_from cfg memberID 0 coefficients 0.

(** The commitments of [CalculateMembersSharesAndCommitments]:
    [C_k = g^a_k * h^b_k mod p] for every index of [coefficientsA]. *)
Fixpoint calculateCommitments (cfg : DKG) (coefficientsA coefficientsB : list Z)
    : list Z :=
  match coefficientsA, coefficientsB with
  | a :: ra, b :: rb =>
      CalculateCommitment (vss cfg) a b (P cfg) :: calculateCommitments cfg ra rb
  | _, _ => []
  end.

(** The loop of [areSharesValidAgainstCommitments]. *)
Fixpoint commitmentsProduct_from (cfg : DKG) (memberID : MemberID)
    (k : nat) (commitments : list Z) (commitmentsProduct : Z) : Z :=
  match commitments with
  | [] => commitmentsProduct
  | c :: rest =>
      commitmentsProduct_from cfg memberID (S k) rest
        (big.Mod (commitmentsProduct * big.Exp c (pow memberID k) (P cfg)) (P cfg))
  end.

Definition areSharesValidAgainstCommitments (cfg : DKG) (shareS shareT : Z)
    (commitments : list Z) (memberID : MemberID) : bool :=
  let commitmentsProduct := commitmentsProduct_from cfg memberID 0 commitments 1 in
  let expectedProduct := CalculateCommitment (vss cfg) shareS shareT (P cfg) in
  expectedProduct =? commitmentsProduct.

(** ** Phases 7 and 8: public key share points (arithmetic part) *)

(** [CalculatePublicKeySharePoints]: [A_k = g^a_k mod p]. *)
Definition calculatePublicKeySharePoints (cfg : DKG) (secretCoefficients : list Z)
    : list Z :=
  map (fun a => big.Exp (G (vss cfg)) a (P cfg)) secretCoefficients.

Fixpoint pointsProduct_from (cfg : DKG) (senderID : MemberID)
    (k : nat) (publicKeySharePoints : list Z) (product : Z) : Z :=
  match publicKeySharePoints with
  | [] => product
  | a :: rest =>
      pointsProduct_from cfg senderID (S k) rest
        (big.Mod (product * big.Exp a (pow senderID k) (P cfg)) (P cfg))
  end.

(** [isShareValidAgainstPublicKeySharePoints].  The share is a [*big.Int]
    read from a map by the callers, so it may be nil ([None]); [big.Exp]
    dereferences its exponent, and a nil exponent panics ([None] result). *)
Definition isShareValidAgainstPublicKeySharePoints (cfg : DKG)
    (senderID : MemberID) (shareS : option Z) (publicKeySharePoints : list Z)
    : option bool :=
  let product := pointsProduct_from cfg senderID 0 publicKeySharePoints 1 in
  match shareS with
  | None => None
  | Some s =>
      let expectedProduct := big.Exp (G (vss cfg)) s (P cfg) in
      Some (expectedProduct =? product)
  end.

(** ** Phase 6: combining the received shares *)


(** ** Phase 11: reconstruction of the keys of disqualified members *)

(** [DisqualifiedShares]: the shares [s_mk] the disqualified member [m]
    calculated for its peers [k]. *)
Record DisqualifiedShares := mkDisqualifiedShares {
  disqualifiedMemberID : MemberID;
  peerSharesS : gmap N Z
}.

(** The loop of [calculateLagrangeCoefficient].  [big.ModInverse] returns nil
    when the difference has no inverse, and the multiplication that follows
    dereferences it: the call panics ([None]). *)
Fixpoint calculateLagrangeCoefficient_from (cfg : DKG) (memberID : MemberID)
    (groupMembersIDs : list MemberID) (lagrangeCoefficient : Z) : option Z :=
  match groupMembersIDs with
  | [] => Some lagrangeCoefficient
  | otherID :: rest =>
      if negb (N.eqb otherID memberID) then
        match big.ModInverse (Int otherID - Int memberID) (Q cfg) with
        | None => None
        | Some inverse =>
            let quotient := big.Mod (Int otherID * inverse) (Q cfg) in
            calculateLagrangeCoefficient_from cfg memberID rest
              (big.Mod (lagrangeCoefficient * quotient) (Q cfg))
        end
      else calculateLagrangeCoefficient_from cfg memberID rest lagrangeCoefficient
  end.

Definition calculateLagrangeCoefficient (cfg : DKG) (memberID : MemberID)
    (groupMembersIDs : list MemberID) : option Z :=
  calculateLagrangeCoefficient_from cfg memberID groupMembersIDs 1.

(** The second loop of [ReconstructIndividualPrivateKeys] for one record:
    [entries] is the enumeration of [peerSharesS] by that loop, [peerIDs] the
    slice of keys collected by the first loop. *)
Fixpoint reconstructIndividualPrivateKey_from (cfg : DKG)
    (peerIDs : list MemberID) (entries : list (MemberID * Z))
    (individualPrivateKey : Z) : option Z :=
  match entries with
  | [] => Some individualPrivateKey
  | (peerID, peerShareS) :: rest =>
      match calculateLagrangeCoefficient cfg peerID peerIDs with
      | None => None
      | Some lagrangeCoefficient =>
          reconstructIndividualPrivateKey_from cfg peerIDs rest
            (big.Mod (individualPrivateKey + peerShareS * lagrangeCoefficient) (Q cfg))
      end
  end.

Definition reconstructIndividualPrivateKey (cfg : DKG)
    (peerIDs : list MemberID) (entries : list (MemberID * Z)) : option Z :=
  reconstructIndividualPrivateKey_from cfg peerIDs entries 0.

(** The outer loop of [ReconstructIndividualPrivateKeys], filling the fresh
    map [keys]; both ranges over [peerSharesS] use the enumeration
    [map_to_list]. *)
Fixpoint reconstructIndividualPrivateKeys_from (cfg : DKG)
    (revealedDisqualifiedShares : list DisqualifiedShares) (keys : gmap N Z)
    : option (gmap N Z) :=
  match revealedDisqualifiedShares with
  | [] => Some keys
  | ds :: rest =>
      let entries := map_to_list (peerSharesS ds) in
      match reconstructIndividualPrivateKey cfg entries.*1 entries with
      | None => None
      | Some individualPrivateKey =>
          reconstructIndividualPrivateKeys_from cfg rest
            (<[disqualifiedMemberID ds := individualPrivateKey]> keys)
      end
  end.

(** The loop of [ReconstructIndividualPublicKeys] over an enumeration of the
    private keys, filling the fresh map [keys]: [y_m = g^{z_m} mod p]. *)
Definition reconstructIndividualPublicKeys_from (cfg : DKG)
    (privateKeys : list (MemberID * Z)) (keys : gmap N Z) : gmap N Z :=
  fold_left
    (fun acc '(memberID, individualPrivateKey) =>
       <[memberID := big.Exp (G (vss cfg)) individualPrivateKey (P cfg)]> acc)
    privateKeys keys.

(** ** Phase 12: the group public key *)


(** ** The ephemeral key channel, the messages and the evidence log *)

(** The package [net/ephemeral] and the shares message with its decryption
    methods are not part of the sources at hand: they are taken as
    parameters.  [decryptShareS] and [decryptShareT] return [None] where the
    Go methods return an error. *)
Class Ephemeral := {
  PrivateKey : Type;
  PublicKey : Type;
  SymmetricKey : Type;
  Ecdh : PrivateKey -> PublicKey -> SymmetricKey;
  PeerSharesMessage : Type;
  sharesSenderID : PeerSharesMessage -> MemberID;
  decryptShareS : PeerSharesMessage -> MemberID -> SymmetricKey -> option Z;
  decryptShareT : PeerSharesMessage -> MemberID -> SymmetricKey -> option Z
}.

Section Protocol.

Context `{Eph : Ephemeral}.

Record KeyPair := mkKeyPair { privateKey : PrivateKey; publicKey : PublicKey }.

Record EphemeralPublicKeyMessage := mkEphemeralPublicKeyMessage {
  ephemeralSenderID : MemberID;
  ephemeralPublicKeys : gmap N PublicKey
}.

Record MemberCommitmentsMessage := mkMemberCommitmentsMessage {
  commitmentsSenderID : MemberID;
  commitments : list Z
}.

(** [accusedMembersKeys] is the list of the entries of the map, in the order
    in which a [range] visits them. *)
Record SecretSharesAccusationsMessage := mkSecretSharesAccusationsMessage {
  accuserID : MemberID;
  accusedMembersKeys : list (MemberID * PrivateKey)
}.

Record MemberPublicKeySharePointsMessage := mkMemberPublicKeySharePointsMessage {
  pointsSenderID : MemberID;
  messagePublicKeySharePoints : list Z
}.

Record PointsAccusationsMessage := mkPointsAccusationsMessage {
  pointsAccuserID : MemberID;
  pointsAccusedMembersKeys : list (MemberID * PrivateKey)
}.

(** Modelled from the spec: the evidence log is not part of the sources at
    hand.  The specification describes it as a store of inbound broadcasts
    keyed by phase and sender in which the first recorded message for a key
    wins and later writes for the same key are ignored. *)
Record EvidenceLog := mkEvidenceLog {
  pubKeyMessageLog : gmap N EphemeralPublicKeyMessage;
  peerSharesMessageLog : gmap N PeerSharesMessage
}.

Definition PutEphemeralMessage (log : EvidenceLog)
    (message : EphemeralPublicKeyMessage) : EvidenceLog :=
  match pubKeyMessageLog log !! ephemeralSenderID message with
  | Some _ => log
  | None =>
      {| pubKeyMessageLog :=
           <[ephemeralSenderID message := message]> (pubKeyMessageLog log);
         peerSharesMessageLog := peerSharesMessageLog log |}
  end.

Definition PutPeerSharesMessage (log : EvidenceLog)
    (message : PeerSharesMessage) : EvidenceLog :=
  match peerSharesMessageLog log !! sharesSenderID message with
  | Some _ => log
  | None =>
      {| pubKeyMessageLog := pubKeyMessageLog log;
         peerSharesMessageLog :=
           <[sharesSenderID message := message]> (peerSharesMessageLog log) |}
  end.

Definition ephemeralPublicKeyMessage (log : EvidenceLog) (sender : MemberID)
    : option EphemeralPublicKeyMessage :=
  pubKeyMessageLog log !! sender.

Definition peerSharesMessage (log : EvidenceLog) (sender : MemberID)
    : option PeerSharesMessage :=
  peerSharesMessageLog log !! sender.

(** ** The member state *)

(** The fields of the Go role types ([memberCore] up to [CombiningMember]),
    which embed one another, as one record.  A [*big.Int] field holds a
    value; the nil cases that matter are the results of map lookups. *)
Record Member := mkMember {
  ID : MemberID;
  protocolConfig : DKG;
  evidenceLog : EvidenceLog;
  ephemeralKeyPairs : gmap N KeyPair;
  symmetricKeys : gmap N SymmetricKey;
  secretCoefficients : list Z;
  selfSecretShareS : Z;
  selfSecretShareT : Z;
  receivedValidSharesS : gmap N Z;
  receivedValidSharesT : gmap N Z;
  receivedValidPeerCommitments : gmap N (list Z);
  masterPrivateKeyShare : Z;
  shareT : Z;
  publicKeySharePoints : list Z;
  receivedValidPeerPublicKeySharePoints : gmap N (list Z);
  reconstructedIndividualPrivateKeys : gmap N Z;
  reconstructedIndividualPublicKeys : gmap N Z;
  groupPublicKey : Z
}.

Definition set_evidenceLog (log : EvidenceLog) (m : Member) : Member :=
  {| ID := ID m;
     protocolConfig := protocolConfig m;
     evidenceLog := log;
     ephemeralKeyPairs := ephemeralKeyPairs m;
     symmetricKeys := symmetricKeys m;
     secretCoefficients := secretCoefficients m;
     selfSecretShareS := selfSecretShareS m;
     selfSecretShareT := selfSecretShareT m;
     receivedValidSharesS := receivedValidSharesS m;
     receivedValidSharesT := receivedValidSharesT m;
     receivedValidPeerCommitments := receivedValidPeerCommitments m;
     masterPrivateKeyShare := masterPrivateKeyShare m;
     shareT := shareT m;
     publicKeySharePoints := publicKeySharePoints m;
     receivedValidPeerPublicKeySharePoints := receivedValidPeerPublicKeySharePoints m;
     reconstructedIndividualPrivateKeys := reconstructedIndividualPrivateKeys m;
     reconstructedIndividualPublicKeys := reconstructedIndividualPublicKeys m;
     groupPublicKey := groupPublicKey m |}.

Definition set_symmetricKey (member : MemberID) (key : SymmetricKey) (m : Member) : Member :=
  {| ID := ID m;
     protocolConfig := protocolConfig m;
     evidenceLog := evidenceLog m;
     ephemeralKeyPairs := ephemeralKeyPairs m;
     symmetricKeys := <[member := key]> (symmetricKeys m);
     secretCoefficients := secretCoefficients m;
     selfSecretShareS := selfSecretShareS m;
     selfSecretShareT := selfSecretShareT m;
     receivedValidSharesS := receivedValidSharesS m;
     receivedValidSharesT := receivedValidSharesT m;
     receivedValidPeerCommitments := receivedValidPeerCommitments m;
     masterPrivateKeyShare := masterPrivateKeyShare m;
     shareT := shareT m;
     publicKeySharePoints := publicKeySharePoints m;
     receivedValidPeerPublicKeySharePoints := receivedValidPeerPublicKeySharePoints m;
     reconstructedIndividualPrivateKeys := reconstructedIndividualPrivateKeys m;
     reconstructedIndividualPublicKeys := reconstructedIndividualPublicKeys m;
     groupPublicKey := groupPublicKey m |}.

Definition set_receivedValidShares (sender : MemberID) (shareS shareT' : Z) (peerCommitments : list Z) (m : Member) : Member :=
  {| ID := ID m;
     protocolConfig := protocolConfig m;
     evidenceLog := evidenceLog m;
     ephemeralKeyPairs := ephemeralKeyPairs m;
     symmetricKeys := symmetricKeys m;
     secretCoefficients := secretCoefficients m;
     selfSecretShareS := selfSecretShareS m;
     selfSecretShareT := selfSecretShareT m;
     receivedValidSharesS := <[sender := shareS]> (receivedValidSharesS m);
     receivedValidSharesT := <[sender := shareT']> (receivedValidSharesT m);
     receivedValidPeerCommitments := <[sender := peerCommitments]> (receivedValidPeerCommitments m);
     masterPrivateKeyShare := masterPrivateKeyShare m;
     shareT := shareT m;
     publicKeySharePoints := publicKeySharePoints m;
     receivedValidPeerPublicKeySharePoints := receivedValidPeerPublicKeySharePoints m;
     reconstructedIndividualPrivateKeys := reconstructedIndividualPrivateKeys m;
     reconstructedIndividualPublicKeys := reconstructedIndividualPublicKeys m;
     groupPublicKey := groupPublicKey m |}.


Definition set_publicKeySharePoints (points : list Z) (m : Member) : Member :=
  {| ID := ID m;
     protocolConfig := protocolConfig m;
     evidenceLog := evidenceLog m;
     ephemeralKeyPairs := ephemeralKeyPairs m;
     symmetricKeys := symmetricKeys m;
     secretCoefficients := secretCoefficients m;
     selfSecretShareS := selfSecretShareS m;
     selfSecretShareT := selfSecretShareT m;
     receivedValidSharesS := receivedValidSharesS m;
     receivedValidSharesT := receivedValidSharesT m;
     receivedValidPeerCommitments := receivedValidPeerCommitments m;
     masterPrivateKeyShare := masterPrivateKeyShare m;
     shareT := shareT m;
     publicKeySharePoints := points;
     receivedValidPeerPublicKeySharePoints := receivedValidPeerPublicKeySharePoints m;
     reconstructedIndividualPrivateKeys := reconstructedIndividualPrivateKeys m;
     reconstructedIndividualPublicKeys := reconstructedIndividualPublicKeys m;
     groupPublicKey := groupPublicKey m |}.

Definition set_receivedValidPeerPublicKeySharePoints (sender : MemberID) (points : list Z) (m : Member) : Member :=
  {| ID := ID m;
     protocolConfig := protocolConfig m;
     evidenceLog := evidenceLog m;
     ephemeralKeyPairs := ephemeralKeyPairs m;
     symmetricKeys := symmetricKeys m;
     secretCoefficients := secretCoefficients m;
     selfSecretShareS := selfSecretShareS m;
     selfSecretShareT := selfSecretShareT m;
     receivedValidSharesS := receivedValidSharesS m;
     receivedValidSharesT := receivedValidSharesT m;
     receivedValidPeerCommitments := receivedValidPeerCommitments m;
     masterPrivateKeyShare := masterPrivateKeyShare m;
     shareT := shareT m;
     publicKeySharePoints := publicKeySharePoints m;
     receivedValidPeerPublicKeySharePoints := <[sender := points]> (receivedValidPeerPublicKeySharePoints m);
     reconstructedIndividualPrivateKeys := reconstructedIndividualPrivateKeys m;
     reconstructedIndividualPublicKeys := reconstructedIndividualPublicKeys m;
     groupPublicKey := groupPublicKey m |}.

Definition set_reconstructedIndividualPrivateKeys (keys : gmap N Z) (m : Member) : Member :=
  {| ID := ID m;
     protocolConfig := protocolConfig m;
     evidenceLog := evidenceLog m;
     ephemeralKeyPairs := ephemeralKeyPairs m;
     symmetricKeys := symmetricKeys m;
     secretCoefficients := secretCoefficients m;
     selfSecretShareS := selfSecretShareS m;
     selfSecretShareT := selfSecretShareT m;
     receivedValidSharesS := receivedValidSharesS m;
     receivedValidSharesT := receivedValidSharesT m;
     receivedValidPeerCommitments := receivedValidPeerCommitments m;
     masterPrivateKeyShare := masterPrivateKeyShare m;
     shareT := shareT m;
     publicKeySharePoints := publicKeySharePoints m;
     receivedValidPeerPublicKeySharePoints := receivedValidPeerPublicKeySharePoints m;
     reconstructedIndividualPrivateKeys := keys;
     reconstructedIndividualPublicKeys := reconstructedIndividualPublicKeys m;
     groupPublicKey := groupPublicKey m |}.

Definition set_reconstructedIndividualPublicKeys (keys : gmap N Z) (m : Member) : Member :=
  {| ID := ID m;
     protocolConfig := protocolConfig m;
     evidenceLog := evidenceLog m;
     ephemeralKeyPairs := ephemeralKeyPairs m;
     symmetricKeys := symmetricKeys m;
     secretCoefficients := secretCoefficients m;
     selfSecretShareS := selfSecretShareS m;
     selfSecretShareT := selfSecretShareT m;
     receivedValidSharesS := receivedValidSharesS m;
     receivedValidSharesT := receivedValidSharesT m;
     receivedValidPeerCommitments := receivedValidPeerCommitments m;
     masterPrivateKeyShare := masterPrivateKeyShare m;
     shareT := shareT m;
     publicKeySharePoints := publicKeySharePoints m;
     receivedValidPeerPublicKeySharePoints := receivedValidPeerPublicKeySharePoints m;
     reconstructedIndividualPrivateKeys := reconstructedIndividualPrivateKeys m;
     reconstructedIndividualPublicKeys := keys;
     groupPublicKey := groupPublicKey m |}.


(** ** Phase 2: symmetric keys *)

(** [GenerateSymmetricKeys]: the state after the call and its outcome.  The
    public key intended for this member is read from the message without a
    presence check and handed to [Ecdh], which dereferences it. *)
Fixpoint GenerateSymmetricKeys (sm : Member)
    (ephemeralPubKeyMessages : list EphemeralPublicKeyMessage)
    : Member * result unit :=
  match ephemeralPubKeyMessages with
  | [] => (sm, Ok tt)
  | ephemeralPubKeyMessage :: rest =>
      let sm := set_evidenceLog
                  (PutEphemeralMessage (evidenceLog sm) ephemeralPubKeyMessage) sm in
      let otherMember := ephemeralSenderID ephemeralPubKeyMessage in
      match ephemeralKeyPairs sm !! otherMember with
      | None => (sm, Err (ErrNoKeyPair otherMember))
      | Some ephemeralKeyPair =>
          let thisMemberEphemeralPrivateKey := privateKey ephemeralKeyPair in
          match ephemeralPublicKeys ephemeralPubKeyMessage !! ID sm with
          | None => (sm, Panic)
          | Some otherMemberEphemeralPublicKey =>
              let symmetricKey :=
                Ecdh thisMemberEphemeralPrivateKey otherMemberEphemeralPublicKey in
              GenerateSymmetricKeys (set_symmetricKey otherMember symmetricKey sm) rest
          end
      end
  end.

(** ** Phase 4: verification of received shares and commitments *)

(** The body run for the commitments message [commitmentsMessage] once the
    shares message of the same sender is found. *)
Definition verifySharesAgainstCommitments (cvm : Member)
    (accusedMembersKeys : gmap N PrivateKey)
    (sharesMessage : PeerSharesMessage)
    (commitmentsMessage : MemberCommitmentsMessage)
    : Member * result (gmap N PrivateKey) :=
  match symmetricKeys cvm !! sharesSenderID sharesMessage with
  | None => (cvm, Err (ErrNoSymmetricKeyForSender (sharesSenderID sharesMessage)))
  | Some symmetricKey =>
      match decryptShareS sharesMessage (ID cvm) symmetricKey with
      | None => (cvm, Err ErrCouldNotDecryptShareS)
      | Some shareS =>
          match decryptShareT sharesMessage (ID cvm) symmetricKey with
          | None => (cvm, Err ErrCouldNotDecryptShareT)
          | Some shareT =>
              let sender := commitmentsSenderID commitmentsMessage in
              if negb (areSharesValidAgainstCommitments (protocolConfig cvm)
                         shareS shareT (commitments commitmentsMessage) (ID cvm))
              then
                match ephemeralKeyPairs cvm !! sender with
                | None => (cvm, Panic)
                | Some keyPair =>
                    (cvm, Ok (<[sender := privateKey keyPair]> accusedMembersKeys))
                end
              else
                (set_receivedValidShares sender shareS shareT
                   (commitments commitmentsMessage) cvm,
                 Ok accusedMembersKeys)
          end
      end
  end.

(** The inner loop: the first shares message of the sender of
    [commitmentsMessage] is verified and the loop left; no such message is an
    error. *)
Fixpoint findSharesMessage (cvm : Member)
    (accusedMembersKeys : gmap N PrivateKey)
    (sharesMessages : list PeerSharesMessage)
    (commitmentsMessage : MemberCommitmentsMessage)
    : Member * result (gmap N PrivateKey) :=
  match sharesMessages with
  | [] =>
      (cvm, Err (ErrCannotFindSharesMessage (commitmentsSenderID commitmentsMessage)))
  | sharesMessage :: rest =>
      if N.eqb (sharesSenderID sharesMessage) (commitmentsSenderID commitmentsMessage)
      then verifySharesAgainstCommitments cvm accusedMembersKeys
             sharesMessage commitmentsMessage
      else findSharesMessage cvm accusedMembersKeys rest commitmentsMessage
  end.

(** The outer loop over the commitments messages. *)
Fixpoint verifyReceivedSharesAndCommitmentsMessages_from (cvm : Member)
    (accusedMembersKeys : gmap N PrivateKey)
    (sharesMessages : list PeerSharesMessage)
    (commitmentsMessages : list MemberCommitmentsMessage)
    : Member * result (gmap N PrivateKey) :=
  match commitmentsMessages with
  | [] => (cvm, Ok accusedMembersKeys)
  | commitmentsMessage :: rest =>
      match findSharesMessage cvm accusedMembersKeys sharesMessages commitmentsMessage with
      | (cvm', Ok accusedMembersKeys') =>
          verifyReceivedSharesAndCommitmentsMessages_from cvm' accusedMembersKeys'
            sharesMessages rest
      | failure => failure
      end
  end.

Definition VerifyReceivedSharesAndCommitmentsMessages (cvm : Member)
    (sharesMessages : list PeerSharesMessage)
    (commitmentsMessages : list MemberCommitmentsMessage)
    : Member * result SecretSharesAccusationsMessage :=
  match verifyReceivedSharesAndCommitmentsMessages_from cvm ∅
          sharesMessages commitmentsMessages with
  | (cvm', Ok accusedMembersKeys) =>
      (cvm', Ok {| accuserID := ID cvm;
                   accusedMembersKeys := map_to_list accusedMembersKeys |})
  | (cvm', Err e) => (cvm', Err e)
  | (cvm', Panic) => (cvm', Panic)
  end.

(** ** Phases 5 and 9: resolution of accusations *)

Definition recoverSymmetricKey (log : EvidenceLog)
    (senderID receiverID : MemberID) (receiverPrivateKey : PrivateKey)
    : result SymmetricKey :=
  match ephemeralPublicKeyMessage log senderID with
  | None => Err (ErrNoEphemeralMessage senderID)
  | Some message =>
      match ephemeralPublicKeys message !! receiverID with
      | None => Err (ErrNoPublicKeyForReceiver receiverID)
      | Some senderPublicKey => Ok (Ecdh receiverPrivateKey senderPublicKey)
      end
  end.

Definition recoverShares (log : EvidenceLog)
    (senderID receiverID : MemberID) (symmetricKey : SymmetricKey)
    : result (Z * Z) :=
  match peerSharesMessage log senderID with
  | None => Err (ErrNoPeerSharesMessage senderID)
  | Some message =>
      match decryptShareS message receiverID symmetricKey with
      | None => Err ErrCannotDecryptShareS
      | Some shareS =>
          match decryptShareT message receiverID symmetricKey with
          | None => Err ErrCannotDecryptShareT
          | Some shareT => Ok (shareS, shareT)
          end
      end
  end.

(** The inner loop of [ResolveSecretSharesAccusationsMessages] over the
    accusations of one message.  A missing entry of
    [receivedValidPeerCommitments] reads as the nil slice. *)
Fixpoint resolveSecretSharesAccusations (sjm : Member) (accuser : MemberID)
    (accusations : list (MemberID * PrivateKey))
    (disqualifiedMembers : list MemberID) : result (list MemberID) :=
  match accusations with
  | [] => Ok disqualifiedMembers
  | (accusedID, revealedAccuserPrivateKey) :: rest =>
      if N.eqb (ID sjm) accuser || N.eqb (ID sjm) accusedID
      then Err ErrSelfInDispute
      else
        match recoverSymmetricKey (evidenceLog sjm) accusedID accuser
                revealedAccuserPrivateKey with
        | Ok symmetricKey =>
            match recoverShares (evidenceLog sjm) accusedID accuser symmetricKey with
            | Ok (shareS, shareT) =>
                if areSharesValidAgainstCommitments (protocolConfig sjm)
                     shareS shareT
                     (default [] (receivedValidPeerCommitments sjm !! accusedID))
                     accuser
                then resolveSecretSharesAccusations sjm accuser rest
                       (disqualifiedMembers ++ [accuser])
                else resolveSecretSharesAccusations sjm accuser rest
                       (disqualifiedMembers ++ [accusedID])
            | Err e => Err (ErrCouldNotDecryptShares e)
            | Panic => Panic
            end
        | Err e => Err (ErrCouldNotRecoverSymmetricKey e)
        | Panic => Panic
        end
  end.

Fixpoint resolveSecretSharesAccusationsMessages_from (sjm : Member)
    (messages : list SecretSharesAccusationsMessage)
    (disqualifiedMembers : list MemberID) : result (list MemberID) :=
  match messages with
  | [] => Ok disqualifiedMembers
  | message :: rest =>
      match resolveSecretSharesAccusations sjm (accuserID message)
              (accusedMembersKeys message) disqualifiedMembers with
      | Ok disqualifiedMembers' =>
          resolveSecretSharesAccusationsMessages_from sjm rest disqualifiedMembers'
      | failure => failure
      end
  end.

(** [ResolveSecretSharesAccusationsMessages]: the member state after the call
    (the function assigns to no field) and the outcome. *)
Definition ResolveSecretSharesAccusationsMessages (sjm : Member)
    (messages : list SecretSharesAccusationsMessage)
    : Member * result (list MemberID) :=
  (sjm, resolveSecretSharesAccusationsMessages_from sjm messages []).

(** The inner loop of [ResolvePublicKeySharePointsAccusationsMessages].  The
    recovered share is never nil, so the validity check cannot panic; the
    [None] case is kept for the type. *)
Fixpoint resolvePublicKeySharePointsAccusations (pjm : Member) (accuser : MemberID)
    (accusations : list (MemberID * PrivateKey))
    (disqualifiedMembers : list MemberID) : result (list MemberID) :=
  match accusations with
  | [] => Ok disqualifiedMembers
  | (accusedID, revealedAccuserPrivateKey) :: rest =>
      if N.eqb (ID pjm) accuser || N.eqb (ID pjm) accusedID
      then Err ErrSelfInDispute
      else
        match recoverSymmetricKey (evidenceLog pjm) accusedID accuser
                revealedAccuserPrivateKey with
        | Ok recoveredSymmetricKey =>
            match recoverShares (evidenceLog pjm) accusedID accuser
                    recoveredSymmetricKey with
            | Ok (shareS, _) =>
                match isShareValidAgainstPublicKeySharePoints (protocolConfig pjm)
                        accuser (Some shareS)
                        (default [] (receivedValidPeerPublicKeySharePoints pjm !! accusedID))
                with
                | Some true =>
                    resolvePublicKeySharePointsAccusations pjm accuser rest
                      (disqualifiedMembers ++ [accuser])
                | Some false =>
                    resolvePublicKeySharePointsAccusations pjm accuser rest
                      (disqualifiedMembers ++ [accusedID])
                | None => Panic
                end
            | Err e => Err (ErrCouldNotDecryptShareSOf e)
            | Panic => Panic
            end
        | Err e => Err (ErrCouldNotRecoverSymmetricKey e)
        | Panic => Panic
        end
  end.

Fixpoint resolvePublicKeySharePointsAccusationsMessages_from (pjm : Member)
    (messages : list PointsAccusationsMessage)
    (disqualifiedMembers : list MemberID) : result (list MemberID) :=
  match messages with
  | [] => Ok disqualifiedMembers
  | message :: rest =>
      match resolvePublicKeySharePointsAccusations pjm (pointsAccuserID message)
              (pointsAccusedMembersKeys message) disqualifiedMembers with
      | Ok disqualifiedMembers' =>
          resolvePublicKeySharePointsAccusationsMessages_from pjm rest
            disqualifiedMembers'
      | failure => failure
      end
  end.

Definition ResolvePublicKeySharePointsAccusationsMessages (pjm : Member)
    (messages : list PointsAccusationsMessage)
    : Member * result (list MemberID) :=
  (pjm, resolvePublicKeySharePointsAccusationsMessages_from pjm messages []).

(** ** Phase 6: [CombineMemberShares] *)


(** ** Phase 7: [CalculatePublicKeySharePoints] *)

Definition CalculatePublicKeySharePoints (sm : Member)
    : Member * MemberPublicKeySharePointsMessage :=
  let points :=
    calculatePublicKeySharePoints (protocolConfig sm) (secretCoefficients sm) in
  (set_publicKeySharePoints points sm,
   {| pointsSenderID := ID sm; messagePublicKeySharePoints := points |}).

(** ** Phase 8: [VerifyPublicKeySharePoints] *)

(** The loop of [VerifyPublicKeySharePoints] with the accusations map built so
    far.  The share of the sender is read from [receivedValidSharesS] without
    a presence check, and so is the key pair of an accused sender, whose
    [PrivateKey] field is then selected. *)
Fixpoint verifyPublicKeySharePoints_from (sm : Member)
    (accusedMembersKeys : gmap N PrivateKey)
    (messages : list MemberPublicKeySharePointsMessage)
    : Member * result (gmap N PrivateKey) :=
  match messages with
  | [] => (sm, Ok accusedMembersKeys)
  | message :: rest =>
      let sender := pointsSenderID message in
      match isShareValidAgainstPublicKeySharePoints (protocolConfig sm) (ID sm)
              (receivedValidSharesS sm !! sender)
              (messagePublicKeySharePoints message) with
      | None => (sm, Panic)
      | Some false =>
          match ephemeralKeyPairs sm !! sender with
          | None => (sm, Panic)
          | Some keyPair =>
              verifyPublicKeySharePoints_from sm
                (<[sender := privateKey keyPair]> accusedMembersKeys) rest
          end
      | Some true =>
          verifyPublicKeySharePoints_from
            (set_receivedValidPeerPublicKeySharePoints sender
               (messagePublicKeySharePoints message) sm)
            accusedMembersKeys rest
      end
  end.

Definition VerifyPublicKeySharePoints (sm : Member)
    (messages : list MemberPublicKeySharePointsMessage)
    : Member * result PointsAccusationsMessage :=
  match verifyPublicKeySharePoints_from sm ∅ messages with
  | (sm', Ok accusedMembersKeys) =>
      (sm', Ok {| pointsAccuserID := ID sm;
                  pointsAccusedMembersKeys := map_to_list accusedMembersKeys |})
  | (sm', Err e) => (sm', Err e)
  | (sm', Panic) => (sm', Panic)
  end.

(** ** Phase 11: [ReconstructIndividualPrivateKeys], [ReconstructIndividualPublicKeys] *)

(** [None] when a Lagrange coefficient cannot be computed (panic). *)
Definition ReconstructIndividualPrivateKeys (rm : Member)
    (revealedDisqualifiedShares : list DisqualifiedShares) : option Member :=
  match reconstructIndividualPrivateKeys_from (protocolConfig rm)
          revealedDisqualifiedShares ∅ with
  | None => None
  | Some keys => Some (set_reconstructedIndividualPrivateKeys keys rm)
  end.

Definition ReconstructIndividualPublicKeys (rm : Member) : Member :=
  set_reconstructedIndividualPublicKeys
    (reconstructIndividualPublicKeys_from (protocolConfig rm)
       (map_to_list (reconstructedIndividualPrivateKeys rm)) ∅)
    rm.

(** ** Phase 12: [CombineGroupPublicKey] *)




End Protocol.

(** ** A small instance of the key channel, for concrete runs *)

(** Keys are integers, a public key is seven times the private one, the
    shared key is the product of a private and a public key, and an encrypted
    pair of shares opens only under the key it was sealed with. *)
Record SealedSharesMessage := mkSealedSharesMessage {
  sealedSenderID : MemberID;
  sealedShares : gmap N (Z * (Z * Z))
}.

Definition openShareS (message : SealedSharesMessage) (receiverID : MemberID)
    (key : Z) : option Z :=
  match sealedShares message !! receiverID with
  | Some (sealKey, (shareS, _)) => if key =? sealKey then Some shareS else None
  | None => None
  end.

Definition openShareT (message : SealedSharesMessage) (receiverID : MemberID)
    (key : Z) : option Z :=
  match sealedShares message !! receiverID with
  | Some (sealKey, (_, shareT)) => if key =? sealKey then Some shareT else None
  | None => None
  end.

Definition smallEphemeral : Ephemeral :=
  {| PrivateKey := Z; PublicKey := Z; SymmetricKey := Z;
     Ecdh := fun privateKey publicKey => privateKey * publicKey;
     PeerSharesMessage := SealedSharesMessage;
     sharesSenderID := sealedSenderID;
     decryptShareS := openShareS;
     decryptShareT := openShareT |}.

(** ** Notions used by the statements *)

(** [sumpow j k l] is the sum of [l_i * j^(k+i)]: the value of the polynomial
    with coefficients [l] at [j], shifted by [j^k]. *)
Fixpoint sumpow (j : MemberID) (k : nat) (l : list Z) : Z :=
  match l with
  | [] => 0
  | a :: rest => a * pow j k + sumpow j (S k) rest
  end.

(** Sum and product of a list of integers. *)
Definition Zsum (l : list Z) : Z := foldr Z.add 0 l.
Definition Zprod (l : list Z) : Z := foldr Z.mul 1 l.

(** A configuration with [P = 23], [Q = 11], [G = 2], [H = 3], and the
    broadcasts of member 2: its public keys, its shares sealed for members 1
    and 3, and (in the state of the judge below) its commitments to the
    polynomials [5 + 3x] and [4 + 7x].  The private key member [i] uses
    with member [j] is [10 i + j]. *)
Definition smallConfig : DKG := mkDKG 23 11 (mkVSS 2 3).

Definition publicKeysOf2 : @EphemeralPublicKeyMessage smallEphemeral :=
  {| ephemeralSenderID := 2%N;
     ephemeralPublicKeys := {[ 1%N := 147; 3%N := 161 ]} |}.

Definition sharesOf2 : SealedSharesMessage :=
  {| sealedSenderID := 2%N;
     sealedShares := {[ 1%N := (1764, (8, 0)); 3%N := (5152, (3, 3)) ]} |}.

(** Member 1 broadcast its public keys too, and member 4 sealed for member 1
    a pair of shares for which the judge holds no commitments. *)
Definition publicKeysOf1 : @EphemeralPublicKeyMessage smallEphemeral :=
  {| ephemeralSenderID := 1%N;
     ephemeralPublicKeys := {[ 2%N := 84; 3%N := 91 ]} |}.

Definition publicKeysOf4 : @EphemeralPublicKeyMessage smallEphemeral :=
  {| ephemeralSenderID := 4%N;
     ephemeralPublicKeys := {[ 1%N := 287 ]} |}.

Definition sharesOf4 : SealedSharesMessage :=
  {| sealedSenderID := 4%N;
     sealedShares := {[ 1%N := (4018, (9, 9)) ]} |}.

Definition judge3 : @Member smallEphemeral :=
  {| ID := 3%N;
     protocolConfig := smallConfig;
     evidenceLog :=
       {| pubKeyMessageLog :=
            {[ 1%N := publicKeysOf1; 2%N := publicKeysOf2; 4%N := publicKeysOf4 ]};
          peerSharesMessageLog := {[ 2%N := sharesOf2; 4%N := sharesOf4 ]} |};
     ephemeralKeyPairs :=
       {[ 1%N := @mkKeyPair smallEphemeral 31 217;
          2%N := @mkKeyPair smallEphemeral 32 224 ]};
     symmetricKeys := {[ 2%N := 5152 ]};
     secretCoefficients := [6; 2];
     selfSecretShareS := 1;
     selfSecretShareT := 9;
     receivedValidSharesS := {[ 2%N := 3 ]};
     receivedValidSharesT := {[ 2%N := 3 ]};
     receivedValidPeerCommitments :=
       {[ 2%N := calculateCommitments smallConfig [5; 3] [4; 7] ]};
     masterPrivateKeyShare := 0;
     shareT := 0;
     publicKeySharePoints := calculatePublicKeySharePoints smallConfig [6; 2];
     receivedValidPeerPublicKeySharePoints :=
       {[ 2%N := calculatePublicKeySharePoints smallConfig [5; 3] ]};
     reconstructedIndividualPrivateKeys := ∅;
     reconstructedIndividualPublicKeys := ∅;
     groupPublicKey := 0 |}.

Section Statements.

Context `{Eph : Ephemeral}.

(** The accusations carried by a list of accusation messages, in the order
    in which the resolution visits them: accuser, accused, revealed key. *)
Definition secretSharesAccusations
    (messages : list SecretSharesAccusationsMessage)
    : list (MemberID * MemberID * PrivateKey) :=
  flat_map
    (fun message =>
       map (fun entry => (accuserID message, entry.1, entry.2))
         (accusedMembersKeys message))
    messages.

Definition pointsAccusations (messages : list PointsAccusationsMessage)
    : list (MemberID * MemberID * PrivateKey) :=
  flat_map
    (fun message =>
       map (fun entry => (pointsAccuserID message, entry.1, entry.2))
         (pointsAccusedMembersKeys message))
    messages.

(** The key and the shares of an accusation are recovered from the log of
    the judge. *)
Definition sharesRecovered (judge : Member)
    (accusation : MemberID * MemberID * PrivateKey) (shareS shareT : Z) : Prop :=
  let '(accuser, accused, revealedKey) := accusation in
  exists symmetricKey,
    recoverSymmetricKey (evidenceLog judge) accused accuser revealedKey
      = Ok symmetricKey /\
    recoverShares (evidenceLog judge) accused accuser symmetricKey
      = Ok (shareS, shareT).

(** The judge is no party of the accusation. *)
Definition notInDispute (judge : Member)
    (accusation : MemberID * MemberID * PrivateKey) : Prop :=
  let '(accuser, accused, _) := accusation in
  ID judge <> accuser /\ ID judge <> accused.

(** [disqualified] is the verdict of a Phase 5 judge on an accusation it is
    no party of and whose shares it recovers: the accuser when the shares
    are valid against the commitments of the accused, the accused
    otherwise. *)
Definition sharesVerdict (sjm : Member)
    (accusation : MemberID * MemberID * PrivateKey)
    (disqualified : MemberID) : Prop :=
  notInDispute sjm accusation /\
  exists shareS shareT,
    sharesRecovered sjm accusation shareS shareT /\
    disqualified =
      if areSharesValidAgainstCommitments (protocolConfig sjm) shareS shareT
           (default [] (receivedValidPeerCommitments sjm !! accusation.1.2))
           accusation.1.1
      then accusation.1.1 else accusation.1.2.

(** The same for a Phase 9 judge, with the check against the public key
    share points of the accused. *)
Definition pointsVerdict (pjm : Member)
    (accusation : MemberID * MemberID * PrivateKey)
    (disqualified : MemberID) : Prop :=
  notInDispute pjm accusation /\
  exists shareS shareT,
    sharesRecovered pjm accusation shareS shareT /\
    exists valid : bool,
      isShareValidAgainstPublicKeySharePoints (protocolConfig pjm)
        accusation.1.1 (Some shareS)
        (default [] (receivedValidPeerPublicKeySharePoints pjm !! accusation.1.2))
        = Some valid /\
      disqualified = if valid then accusation.1.1 else accusation.1.2.

End Statements.

(** Accusation messages of member 1: against members 2 and 4 with the keys
    it really used ([12] and [14]); against member 2 with the key [13], which
    is not the private half of the public key [84] it broadcast for member
    2; and with member 3 among the accused. *)
Definition accusationsOf1 : @SecretSharesAccusationsMessage smallEphemeral :=
  @mkSecretSharesAccusationsMessage smallEphemeral 1%N [(2%N, 12); (4%N, 14)].

Definition wrongKeyAccusationOf1 : @SecretSharesAccusationsMessage smallEphemeral :=
  @mkSecretSharesAccusationsMessage smallEphemeral 1%N [(2%N, 13)].

Definition accusationAgainst3 : @SecretSharesAccusationsMessage smallEphemeral :=
  @mkSecretSharesAccusationsMessage smallEphemeral 1%N [(2%N, 12); (3%N, 13)].

Definition pointsAccusationsOf1 : @PointsAccusationsMessage smallEphemeral :=
  @mkPointsAccusationsMessage smallEphemeral 1%N [(2%N, 12); (4%N, 14)].

Definition wrongKeyPointsAccusationOf1 : @PointsAccusationsMessage smallEphemeral :=
  @mkPointsAccusationsMessage smallEphemeral 1%N [(2%N, 13)].

Definition pointsAccusationAgainst3 : @PointsAccusationsMessage smallEphemeral :=
  @mkPointsAccusationsMessage smallEphemeral 1%N [(2%N, 12); (3%N, 13)].

Section Pairing.

Context `{Eph : Ephemeral}.

(** A commitments message is paired when some shares message has the same
    sender, and a shares message when some commitments message has. *)
Definition hasSharesMessage (sharesMessages : list PeerSharesMessage)
    (commitmentsMessage : MemberCommitmentsMessage) : bool :=
  existsb
    (fun sharesMessage =>
       N.eqb (sharesSenderID sharesMessage) (commitmentsSenderID commitmentsMessage))
    sharesMessages.

Definition hasCommitmentsMessage (commitmentsMessages : list MemberCommitmentsMessage)
    (sharesMessage : PeerSharesMessage) : bool :=
  existsb
    (fun commitmentsMessage =>
       N.eqb (sharesSenderID sharesMessage) (commitmentsSenderID commitmentsMessage))
    commitmentsMessages.

End Pairing.

(** The commitments message of member 2. *)
Definition commitmentsOf2 : MemberCommitmentsMessage :=
  {| commitmentsSenderID := 2%N;
     commitments := calculateCommitments smallConfig [5; 3] [4; 7] |}.

(** The public keys member 5 broadcast; the judge generated no key pair for
    member 5. *)
Definition publicKeysOf5 : @EphemeralPublicKeyMessage smallEphemeral :=
  {| ephemeralSenderID := 5%N;
     ephemeralPublicKeys := {[ 3%N := 371 ]} |}.




(** The Lagrange coefficient in the words of the specification: the product,
    over the peers [l] other than [k], of [l * (l - k)^-1], reduced modulo
    [q]; a negative difference of identifiers has [q] added before the
    inversion. *)
Definition reducedDifference (q : Z) (l k : MemberID) : Z :=
  let d := Int l - Int k in
  if d <? 0 then d + q else d.

Definition otherPeers (k : MemberID) (peerIDs : list MemberID) : list MemberID :=
  List.filter (fun l => negb (N.eqb l k)) peerIDs.

Definition lagrangeCoefficient (q : Z) (k : MemberID) (peerIDs : list MemberID) : Z :=
  Zprod (map (fun l => Int l * Z.invmod (reducedDifference q l k) q)
           (otherPeers k peerIDs)) mod q.

(** ** Polynomials as coefficient lists, for the interpolation argument *)

(** Value at [x] of the polynomial with coefficients [c], lowest degree
    first. *)
Fixpoint eval (c : list Z) (x : Z) : Z :=
  match c with
  | [] => 0
  | a :: rest => a + x * eval rest x
  end.

Fixpoint padd (p q : list Z) : list Z :=
  match p, q with
  | [], _ => q
  | _, [] => p
  | a :: p', b :: q' => (a + b) :: padd p' q'
  end.

Definition pscale (a : Z) (p : list Z) : list Z := map (Z.mul a) p.

(** The product of [p] with the linear factor [b - X]. *)
Definition plinear (b : Z) (p : list Z) : list Z :=
  padd (pscale b p) (0 :: pscale (-1) p).

(** The Lagrange basis polynomial of [k] over the peers: the product over
    the peers [l] other than [k] of [(l - X) * (l - k)^-1]. *)
Definition basis (q : Z) (k : MemberID) (peerIDs : list MemberID) : list Z :=
  foldr
    (fun l p => pscale (Z.invmod (Int l - Int k) q) (plinear (Int l) p))
    [1] (otherPeers k peerIDs).

(** The interpolating polynomial of the revealed shares. *)
Definition interpolant (q : Z) (peerIDs : list MemberID)
    (entries : list (MemberID * Z)) : list Z :=
  foldr (fun entry p => padd (pscale entry.2 (basis q entry.1 peerIDs)) p)
    [] entries.

(** The integers of [roots] are pairwise distinct modulo [q]. *)
Fixpoint distinctModulo (q : Z) (roots : list Z) : Prop :=
  match roots with
  | [] => True
  | r :: rest => Forall (fun r' => (r' - r) mod q <> 0) rest /\ distinctModulo q rest
  end.

(** The shares member 2 calculated for members 1, 2 and 3 with its
    polynomial [5 + 3x], revealed after its disqualification. *)
Definition revealedSharesOf2 : DisqualifiedShares :=
  {| disqualifiedMemberID := 2%N;
     peerSharesS := {[ 1%N := 8; 2%N := 0; 3%N := 3 ]} |}.

(** * Properties *)

(** ** Arithmetic of [math/big] on positive moduli *)

Lemma Mod_pos x m : 0 < m -> big.Mod x m = x mod m.
Proof. intros Hm. unfold big.Mod. by rewrite Z.abs_eq by lia. Qed.

Lemma Mod_range x m : 0 < m -> 0 <= big.Mod x m < m.
Proof. intros Hm. rewrite Mod_pos by done. apply Z.mod_pos_bound. lia. Qed.

Lemma Exp_pos x y m : 0 < m -> 0 <= y -> big.Exp x y m = x ^ y mod m.
Proof.
  intros Hm Hy. unfold big.Exp.
  rewrite Z.max_l by lia. destruct (Z.eqb_spec m 0); [lia|].
  by rewrite Z.abs_eq by lia.
Qed.

Lemma pow_eq id k : pow id k = Int id ^ Z.of_nat k.
Proof. unfold pow, big.Exp. simpl. by rewrite Z.max_l by lia. Qed.

Lemma Int_nonneg id : 0 <= Int id.
Proof. unfold Int. lia. Qed.

Lemma pow_nonneg id k : 0 <= pow id k.
Proof. rewrite pow_eq. apply Z.pow_nonneg, Int_nonneg. Qed.

Lemma sumpow_nonneg j k l : Forall (fun x => 0 <= x) l -> 0 <= sumpow j k l.
Proof.
  intros Hl. revert k. induction Hl as [|a l Ha _ IH]; intros k; simpl; [lia|].
  specialize (IH (S k)). pose proof (pow_nonneg j k). nia.
Qed.

Lemma evaluateMemberShare_from_sumpow cfg j k l r :
  0 < Q cfg -> 0 <= r < Q cfg ->
  evaluateMemberShare_from cfg j k l r = (r + sumpow j k l) mod Q cfg.
Proof.
  intros HQ. revert k r. induction l as [|a l IH]; intros k r Hr; simpl.
  - rewrite Z.add_0_r. symmetry. by apply Z.mod_small.
  - rewrite IH by (apply Mod_range; lia).
    rewrite Mod_pos by done. rewrite Z.add_mod_idemp_l by lia.
    f_equal. lia.
Qed.

Lemma evaluateMemberShare_sumpow cfg j l :
  0 < Q cfg -> evaluateMemberShare cfg j l = sumpow j 0 l mod Q cfg.
Proof.
  intros HQ. unfold evaluateMemberShare.
  rewrite evaluateMemberShare_from_sumpow by lia. by rewrite Z.add_0_l.
Qed.

Lemma pow_mod_order g q p x :
  1 < p -> 0 < q -> g ^ q mod p = 1 -> 0 <= x ->
  g ^ (x mod q) mod p = g ^ x mod p.
Proof.
  intros Hp Hq Hg Hx.
  rewrite (Z.div_mod x q) at 2 by lia.
  pose proof (Z.mod_pos_bound x q Hq).
  assert (0 <= x / q) by (apply Z.div_pos; lia).
  rewrite Z.pow_add_r, Z.pow_mul_r by nia.
  rewrite <- Z.mul_mod_idemp_l by lia.
  rewrite <- (Z.mod_pow_l (g ^ q)), Hg.
  rewrite Z.pow_1_l by lia. rewrite Z.mod_1_l by lia. by rewrite Z.mul_1_l.
Qed.

Lemma CalculateCommitment_pos v a b p :
  0 < p -> 0 <= a -> 0 <= b ->
  CalculateCommitment v a b p = (G v ^ a * H v ^ b) mod p.
Proof.
  intros Hp Ha Hb. unfold CalculateCommitment.
  rewrite Mod_pos, !Exp_pos by done. by rewrite <- Z.mul_mod by lia.
Qed.

Lemma commitmentsProduct_from_honest cfg j k a b acc :
  1 < P cfg -> length a = length b ->
  Forall (fun x => 0 <= x) a -> Forall (fun x => 0 <= x) b ->
  0 <= acc < P cfg ->
  commitmentsProduct_from cfg j k (calculateCommitments cfg a b) acc =
  (acc * (G (vss cfg) ^ sumpow j k a * H (vss cfg) ^ sumpow j k b)) mod P cfg.
Proof.
  intros HP Hlen Ha. revert b k acc Hlen.
  induction Ha as [|x a Hx Ha IH]; intros b k acc Hlen Hb Hacc.
  - destruct b; [|done]. simpl. rewrite Z.mul_1_r. symmetry. by apply Z.mod_small.
  - destruct b as [|y b]; [done|]. inversion Hb as [|? ? Hy Hb']; subst.
    simpl in Hlen. simpl.
    rewrite IH by first [lia | done | apply Mod_range; lia].
    pose proof (pow_nonneg j k) as He.
    pose proof (sumpow_nonneg j (S k) a Ha).
    pose proof (sumpow_nonneg j (S k) b Hb').
    rewrite Mod_pos, Exp_pos, CalculateCommitment_pos by lia.
    rewrite Z.mod_pow_l.
    rewrite Z.mul_mod_idemp_r by lia. rewrite Z.mul_mod_idemp_l by lia.
    f_equal.
    rewrite !Z.pow_add_r, Z.pow_mul_l, <- !Z.pow_mul_r by nia. ring.
Qed.

(** C3.  Honest shares verify: for a configuration with [P = 2Q+1] whose
    generators [G], [H] satisfy [G^Q = H^Q = 1 (mod P)], coefficient vectors
    [a], [b] of equal length with entries in [(0, Q)] and any member [j], the
    shares [evaluateMemberShare j a], [evaluateMemberShare j b] pass
    [areSharesValidAgainstCommitments] against the commitments
    [C_k = G^a_k * H^b_k mod P]. *)
Theorem honest_shares_are_valid (cfg : DKG) (a b : list Z) (j : MemberID) :
  P cfg = 2 * Q cfg + 1 -> 0 < Q cfg ->
  big.Exp (G (vss cfg)) (Q cfg) (P cfg) = 1 ->
  big.Exp (H (vss cfg)) (Q cfg) (P cfg) = 1 ->
  length a = length b ->
  Forall (fun x => 0 < x < Q cfg) a ->
  Forall (fun x => 0 < x < Q cfg) b ->
  areSharesValidAgainstCommitments cfg
    (evaluateMemberShare cfg j a) (evaluateMemberShare cfg j b)
    (calculateCommitments cfg a b) j = true.
Proof.
  intros HPQ HQ HG HH Hlen Ha Hb.
  assert (HP : 1 < P cfg) by lia.
  rewrite Exp_pos in HG, HH by lia.
  assert (Ha' : Forall (fun x => 0 <= x) a) by (eapply Forall_impl; [exact Ha|simpl; lia]).
  assert (Hb' : Forall (fun x => 0 <= x) b) by (eapply Forall_impl; [exact Hb|simpl; lia]).
  pose proof (sumpow_nonneg j 0 a Ha') as HSa.
  pose proof (sumpow_nonneg j 0 b Hb') as HSb.
  unfold areSharesValidAgainstCommitments.
  rewrite commitmentsProduct_from_honest by first [done | lia].
  rewrite !evaluateMemberShare_sumpow by done.
  rewrite CalculateCommitment_pos by first [lia | apply Z.mod_pos_bound; lia].
  apply Z.eqb_eq. rewrite Z.mul_1_l.
  rewrite Z.mul_mod by lia.
  rewrite !pow_mod_order by first [done | lia].
  by rewrite <- Z.mul_mod by lia.
Qed.

Lemma honest_shares_are_valid_witness :
  areSharesValidAgainstCommitments (mkDKG 23 11 (mkVSS 2 3))
    (evaluateMemberShare (mkDKG 23 11 (mkVSS 2 3)) 2%N [1; 2])
    (evaluateMemberShare (mkDKG 23 11 (mkVSS 2 3)) 2%N [3; 4])
    (calculateCommitments (mkDKG 23 11 (mkVSS 2 3)) [1; 2] [3; 4]) 2%N = true.
Proof.
  apply (honest_shares_are_valid (mkDKG 23 11 (mkVSS 2 3)) [1; 2] [3; 4] 2%N);
    try reflexivity; simpl; try lia.
  - repeat constructor; lia.
  - repeat constructor; lia.
Defined.

(** ** Folds that reduce after every step *)










Section Combining.

Context `{Eph : Ephemeral}.


End Combining.


Section Resolution.

Context `{Eph : Ephemeral}.

Implicit Types (accusations : list (MemberID * PrivateKey)).

(** *** Phase 5 *)

Lemma resolveSecretSharesAccusations_Ok sjm accuser accusations dq0 dq :
  resolveSecretSharesAccusations sjm accuser accusations dq0 = Ok dq <->
  exists ds, dq = dq0 ++ ds /\
    Forall2 (sharesVerdict sjm)
      (map (fun entry => (accuser, entry.1, entry.2)) accusations) ds.
Proof.
  revert dq0. induction accusations as [|[accused key] rest IH]; intros dq0; simpl.
  - split.
    + intros [= <-]. exists []. rewrite app_nil_r. by split; [|constructor].
    + intros (ds & -> & Hds). inversion Hds. by rewrite app_nil_r.
  - destruct (N.eqb_spec (ID sjm) accuser) as [Ha|Ha]; simpl.
    { split; [done|]. intros (ds & _ & Hds). inversion Hds as [|? ? ? ? Hv]; subst.
      destruct Hv as [[? ?] _]. done. }
    destruct (N.eqb_spec (ID sjm) accused) as [Hb|Hb]; simpl.
    { split; [done|]. intros (ds & _ & Hds). inversion Hds as [|? ? ? ? Hv]; subst.
      destruct Hv as [[? ?] _]. done. }
    destruct (recoverSymmetricKey _ accused accuser key) as [symKey|e|] eqn:Hkey.
    2,3: split; [done|]; intros (ds & _ & Hds);
         inversion Hds as [|? ? ? ? Hv]; subst;
         destruct Hv as (_ & s & t & (k & Hk & _) & _); simpl in Hk; congruence.
    destruct (recoverShares _ accused accuser symKey) as [[shareS shareT]|e|] eqn:Hsh.
    2,3: split; [done|]; intros (ds & _ & Hds);
         inversion Hds as [|? ? ? ? Hv]; subst;
         destruct Hv as (_ & s & t & (k & Hk & Hs) & _); simpl in Hk, Hs; congruence.
    set (valid := areSharesValidAgainstCommitments _ _ _ _ _).
    assert (Hverdict : forall d, sharesVerdict sjm (accuser, accused, key) d <->
                                 d = if valid then accuser else accused).
    { intros d. split.
      - intros (_ & s & t & (k & Hk & Hs) & ->). simpl in *.
        assert (k = symKey) as -> by congruence.
        assert (s = shareS /\ t = shareT) as [-> ->] by (split; congruence). done.
      - intros ->. split; [done|]. exists shareS, shareT. split; [|done].
        exists symKey. done. }
    assert (Hstep : forall d, (exists ds, dq = (dq0 ++ [d]) ++ ds /\
               Forall2 (sharesVerdict sjm)
                 (map (fun entry => (accuser, entry.1, entry.2)) rest) ds) ->
             d = (if valid then accuser else accused) ->
             exists ds, dq = dq0 ++ ds /\
               Forall2 (sharesVerdict sjm)
                 ((accuser, accused, key) ::
                  map (fun entry => (accuser, entry.1, entry.2)) rest) ds).
    { intros d (ds & -> & Hds) Hd. exists (d :: ds). split; [by rewrite <- app_assoc|].
      constructor; [by apply Hverdict|done]. }
    assert (Hback : (exists ds, dq = dq0 ++ ds /\
               Forall2 (sharesVerdict sjm)
                 ((accuser, accused, key) ::
                  map (fun entry => (accuser, entry.1, entry.2)) rest) ds) ->
             exists ds, dq = (dq0 ++ [if valid then accuser else accused]) ++ ds /\
               Forall2 (sharesVerdict sjm)
                 (map (fun entry => (accuser, entry.1, entry.2)) rest) ds).
    { intros (ds & -> & Hds). inversion Hds as [|? d ? ds' Hv Hds']; subst.
      apply Hverdict in Hv as ->. exists ds'. split; [by rewrite <- app_assoc|done]. }
    destruct valid; rewrite IH; (split; [intros Hx; by eapply Hstep|apply Hback]).
Qed.

Lemma resolveSecretSharesAccusations_no_panic sjm accuser accusations dq0 :
  resolveSecretSharesAccusations sjm accuser accusations dq0 <> Panic.
Proof.
  revert dq0. induction accusations as [|[accused key] rest IH]; intros dq0; simpl; [done|].
  destruct (_ || _); [done|].
  unfold recoverSymmetricKey, recoverShares.
  repeat case_match; simplify_eq; try done; apply IH.
Qed.

Lemma resolveSecretSharesAccusationsMessages_Ok sjm messages dq0 dq :
  resolveSecretSharesAccusationsMessages_from sjm messages dq0 = Ok dq <->
  exists ds, dq = dq0 ++ ds /\
    Forall2 (sharesVerdict sjm) (secretSharesAccusations messages) ds.
Proof.
  revert dq0. induction messages as [|message rest IH]; intros dq0; simpl.
  - split.
    + intros [= <-]. exists []. rewrite app_nil_r. by split; [|constructor].
    + intros (ds & -> & Hds). inversion Hds. by rewrite app_nil_r.
  - destruct (resolveSecretSharesAccusations sjm (accuserID message)
                (accusedMembersKeys message) dq0) as [dq1|e|] eqn:Hinner.
    + apply resolveSecretSharesAccusations_Ok in Hinner as (ds1 & -> & Hds1).
      rewrite IH. split.
      * intros (ds & -> & Hds). exists (ds1 ++ ds).
        split; [by rewrite app_assoc|]. by apply Forall2_app.
      * intros (ds & -> & Hds).
        apply Forall2_app_inv_l in Hds as (ds1' & ds2 & Hds1' & Hds2 & ->).
        assert (ds1' = ds1) as ->.
        { assert (Hfun : resolveSecretSharesAccusations sjm (accuserID message)
                    (accusedMembersKeys message) dq0 = Ok (dq0 ++ ds1')).
          { apply resolveSecretSharesAccusations_Ok. by exists ds1'. }
          assert (Hfun' : resolveSecretSharesAccusations sjm (accuserID message)
                    (accusedMembersKeys message) dq0 = Ok (dq0 ++ ds1)).
          { apply resolveSecretSharesAccusations_Ok. by exists ds1. }
          rewrite Hfun in Hfun'. injection Hfun' as Heq. by apply app_inv_head in Heq. }
        exists ds2. by rewrite app_assoc.
    + split; [done|]. intros (ds & -> & Hds).
      apply Forall2_app_inv_l in Hds as (ds1 & ds2 & Hds1 & _ & ->).
      assert (Hfun : resolveSecretSharesAccusations sjm (accuserID message)
                (accusedMembersKeys message) dq0 = Ok (dq0 ++ ds1)).
      { apply resolveSecretSharesAccusations_Ok. by exists ds1. }
      congruence.
    + by apply resolveSecretSharesAccusations_no_panic in Hinner.
Qed.

Lemma resolveSecretSharesAccusationsMessages_no_panic sjm messages dq0 :
  resolveSecretSharesAccusationsMessages_from sjm messages dq0 <> Panic.
Proof.
  revert dq0. induction messages as [|message rest IH]; intros dq0; simpl; [done|].
  destruct (resolveSecretSharesAccusations _ _ _ _) eqn:Hinner; [apply IH|done|].
  by apply resolveSecretSharesAccusations_no_panic in Hinner.
Qed.

(** An accusation on which no verdict is possible makes the resolution
    return an error. *)
Lemma resolveSecretSharesAccusationsMessages_Err sjm messages accusation :
  accusation ∈ secretSharesAccusations messages ->
  (forall d, ~ sharesVerdict sjm accusation d) ->
  exists e, resolveSecretSharesAccusationsMessages_from sjm messages [] = Err e.
Proof.
  intros Hin Hno.
  destruct (resolveSecretSharesAccusationsMessages_from sjm messages []) as [dq|e|] eqn:Hres.
  - apply resolveSecretSharesAccusationsMessages_Ok in Hres as (ds & _ & Hds).
    apply list_elem_of_lookup in Hin as [i Hi].
    destruct (Forall2_lookup_l _ _ _ _ _ Hds Hi) as (d & _ & Hd).
    by destruct (Hno d).
  - by exists e.
  - by apply resolveSecretSharesAccusationsMessages_no_panic in Hres.
Qed.

(** *** Phase 9 *)

Lemma resolvePublicKeySharePointsAccusations_Ok pjm accuser accusations dq0 dq :
  resolvePublicKeySharePointsAccusations pjm accuser accusations dq0 = Ok dq <->
  exists ds, dq = dq0 ++ ds /\
    Forall2 (pointsVerdict pjm)
      (map (fun entry => (accuser, entry.1, entry.2)) accusations) ds.
Proof.
  revert dq0. induction accusations as [|[accused key] rest IH]; intros dq0; simpl.
  - split.
    + intros [= <-]. exists []. rewrite app_nil_r. by split; [|constructor].
    + intros (ds & -> & Hds). inversion Hds. by rewrite app_nil_r.
  - destruct (N.eqb_spec (ID pjm) accuser) as [Ha|Ha]; simpl.
    { split; [done|]. intros (ds & _ & Hds). inversion Hds as [|? ? ? ? Hv]; subst.
      destruct Hv as [[? ?] _]. done. }
    destruct (N.eqb_spec (ID pjm) accused) as [Hb|Hb]; simpl.
    { split; [done|]. intros (ds & _ & Hds). inversion Hds as [|? ? ? ? Hv]; subst.
      destruct Hv as [[? ?] _]. done. }
    destruct (recoverSymmetricKey _ accused accuser key) as [symKey|e|] eqn:Hkey.
    2,3: split; [done|]; intros (ds & _ & Hds);
         inversion Hds as [|? ? ? ? Hv]; subst;
         destruct Hv as (_ & s & t & (k & Hk & _) & _); simpl in Hk; congruence.
    destruct (recoverShares _ accused accuser symKey) as [[shareS shareT]|e|] eqn:Hsh.
    2,3: split; [done|]; intros (ds & _ & Hds);
         inversion Hds as [|? ? ? ? Hv]; subst;
         destruct Hv as (_ & s & t & (k & Hk & Hs) & _); simpl in Hk, Hs; congruence.
    unfold isShareValidAgainstPublicKeySharePoints.
    set (valid := _ =? _).
    assert (Hverdict : forall d, pointsVerdict pjm (accuser, accused, key) d <->
                                 d = if valid then accuser else accused).
    { intros d. split.
      - intros (_ & s & t & (k & Hk & Hs) & b & Hb' & ->). simpl in *.
        assert (k = symKey) as -> by congruence.
        assert (s = shareS) as -> by congruence.
        unfold isShareValidAgainstPublicKeySharePoints in Hb'.
        injection Hb' as <-. done.
      - intros ->. split; [done|]. exists shareS, shareT. split; [by exists symKey|].
        exists valid. done. }
    assert (Hstep : forall d, (exists ds, dq = (dq0 ++ [d]) ++ ds /\
               Forall2 (pointsVerdict pjm)
                 (map (fun entry => (accuser, entry.1, entry.2)) rest) ds) ->
             d = (if valid then accuser else accused) ->
             exists ds, dq = dq0 ++ ds /\
               Forall2 (pointsVerdict pjm)
                 ((accuser, accused, key) ::
                  map (fun entry => (accuser, entry.1, entry.2)) rest) ds).
    { intros d (ds & -> & Hds) Hd. exists (d :: ds). split; [by rewrite <- app_assoc|].
      constructor; [by apply Hverdict|done]. }
    assert (Hback : (exists ds, dq = dq0 ++ ds /\
               Forall2 (pointsVerdict pjm)
                 ((accuser, accused, key) ::
                  map (fun entry => (accuser, entry.1, entry.2)) rest) ds) ->
             exists ds, dq = (dq0 ++ [if valid then accuser else accused]) ++ ds /\
               Forall2 (pointsVerdict pjm)
                 (map (fun entry => (accuser, entry.1, entry.2)) rest) ds).
    { intros (ds & -> & Hds). inversion Hds as [|? d ? ds' Hv Hds']; subst.
      apply Hverdict in Hv as ->. exists ds'. split; [by rewrite <- app_assoc|done]. }
    destruct valid; rewrite IH; (split; [intros Hx; by eapply Hstep|apply Hback]).
Qed.

Lemma resolvePublicKeySharePointsAccusations_no_panic pjm accuser accusations dq0 :
  resolvePublicKeySharePointsAccusations pjm accuser accusations dq0 <> Panic.
Proof.
  revert dq0. induction accusations as [|[accused key] rest IH]; intros dq0; simpl; [done|].
  destruct (_ || _); [done|].
  unfold recoverSymmetricKey, recoverShares, isShareValidAgainstPublicKeySharePoints.
  repeat case_match; simplify_eq; try done; apply IH.
Qed.

Lemma resolvePublicKeySharePointsAccusationsMessages_Ok pjm messages dq0 dq :
  resolvePublicKeySharePointsAccusationsMessages_from pjm messages dq0 = Ok dq <->
  exists ds, dq = dq0 ++ ds /\
    Forall2 (pointsVerdict pjm) (pointsAccusations messages) ds.
Proof.
  revert dq0. induction messages as [|message rest IH]; intros dq0; simpl.
  - split.
    + intros [= <-]. exists []. rewrite app_nil_r. by split; [|constructor].
    + intros (ds & -> & Hds). inversion Hds. by rewrite app_nil_r.
  - destruct (resolvePublicKeySharePointsAccusations pjm (pointsAccuserID message)
                (pointsAccusedMembersKeys message) dq0) as [dq1|e|] eqn:Hinner.
    + apply resolvePublicKeySharePointsAccusations_Ok in Hinner as (ds1 & -> & Hds1).
      rewrite IH. split.
      * intros (ds & -> & Hds). exists (ds1 ++ ds).
        split; [by rewrite app_assoc|]. by apply Forall2_app.
      * intros (ds & -> & Hds).
        apply Forall2_app_inv_l in Hds as (ds1' & ds2 & Hds1' & Hds2 & ->).
        assert (ds1' = ds1) as ->.
        { assert (Hfun : resolvePublicKeySharePointsAccusations pjm
                    (pointsAccuserID message)
                    (pointsAccusedMembersKeys message) dq0 = Ok (dq0 ++ ds1')).
          { apply resolvePublicKeySharePointsAccusations_Ok. by exists ds1'. }
          assert (Hfun' : resolvePublicKeySharePointsAccusations pjm
                    (pointsAccuserID message)
                    (pointsAccusedMembersKeys message) dq0 = Ok (dq0 ++ ds1)).
          { apply resolvePublicKeySharePointsAccusations_Ok. by exists ds1. }
          rewrite Hfun in Hfun'. injection Hfun' as Heq. by apply app_inv_head in Heq. }
        exists ds2. by rewrite app_assoc.
    + split; [done|]. intros (ds & -> & Hds).
      apply Forall2_app_inv_l in Hds as (ds1 & ds2 & Hds1 & _ & ->).
      assert (Hfun : resolvePublicKeySharePointsAccusations pjm
                (pointsAccuserID message)
                (pointsAccusedMembersKeys message) dq0 = Ok (dq0 ++ ds1)).
      { apply resolvePublicKeySharePointsAccusations_Ok. by exists ds1. }
      congruence.
    + by apply resolvePublicKeySharePointsAccusations_no_panic in Hinner.
Qed.

Lemma resolvePublicKeySharePointsAccusationsMessages_no_panic pjm messages dq0 :
  resolvePublicKeySharePointsAccusationsMessages_from pjm messages dq0 <> Panic.
Proof.
  revert dq0. induction messages as [|message rest IH]; intros dq0; simpl; [done|].
  destruct (resolvePublicKeySharePointsAccusations _ _ _ _) eqn:Hinner; [apply IH|done|].
  by apply resolvePublicKeySharePointsAccusations_no_panic in Hinner.
Qed.

Lemma resolvePublicKeySharePointsAccusationsMessages_Err pjm messages accusation :
  accusation ∈ pointsAccusations messages ->
  (forall d, ~ pointsVerdict pjm accusation d) ->
  exists e, resolvePublicKeySharePointsAccusationsMessages_from pjm messages [] = Err e.
Proof.
  intros Hin Hno.
  destruct (resolvePublicKeySharePointsAccusationsMessages_from pjm messages [])
    as [dq|e|] eqn:Hres.
  - apply resolvePublicKeySharePointsAccusationsMessages_Ok in Hres as (ds & _ & Hds).
    apply list_elem_of_lookup in Hin as [i Hi].
    destruct (Forall2_lookup_l _ _ _ _ _ Hds Hi) as (d & _ & Hd).
    by destruct (Hno d).
  - by exists e.
  - by apply resolvePublicKeySharePointsAccusationsMessages_no_panic in Hres.
Qed.

(** C1.  The list of disqualified members returned by
    [ResolveSecretSharesAccusationsMessages] holds exactly one member per
    accusation, in the order of the accusations: for an accusation of
    accuser [a] against [b] that the judge is no party of and whose key and
    shares [(s, t)] are recovered from the evidence log, it is [a] when
    [areSharesValidAgainstCommitments s t C_b a] is true and [b] otherwise;
    and a list is returned exactly when every accusation allows such a
    verdict. *)
Theorem shares_accusation_verdicts (sjm : Member)
    (messages : list SecretSharesAccusationsMessage) (dq : list MemberID) :
  (ResolveSecretSharesAccusationsMessages sjm messages).2 = Ok dq <->
  Forall2 (sharesVerdict sjm) (secretSharesAccusations messages) dq.
Proof.
  unfold ResolveSecretSharesAccusationsMessages. simpl.
  rewrite resolveSecretSharesAccusationsMessages_Ok. simpl. split.
  - by intros (ds & -> & Hds).
  - intros Hds. by exists dq.
Qed.

(** C5 (amended).  An accusation whose recovered symmetric key does not
    decrypt the recorded shares makes Phase 5 and Phase 9 return an error
    and no list of disqualified members. *)
Theorem undecryptable_accusation_is_an_error (judge : Member)
    (accusation : MemberID * MemberID * PrivateKey)
    (symmetricKey : SymmetricKey) (e : error) :
  recoverSymmetricKey (evidenceLog judge) accusation.1.2 accusation.1.1
    accusation.2 = Ok symmetricKey ->
  recoverShares (evidenceLog judge) accusation.1.2 accusation.1.1
    symmetricKey = Err e ->
  (forall messages, accusation ∈ secretSharesAccusations messages ->
     exists e', ResolveSecretSharesAccusationsMessages judge messages
                = (judge, Err e')) /\
  (forall messages, accusation ∈ pointsAccusations messages ->
     exists e', ResolvePublicKeySharePointsAccusationsMessages judge messages
                = (judge, Err e')).
Proof.
  destruct accusation as [[accuser accused] key]. simpl. intros Hkey Hshares.
  split; intros messages Hin.
  - destruct (resolveSecretSharesAccusationsMessages_Err judge messages _ Hin)
      as [e' He'].
    + intros d (_ & s & t & (k & Hk & Hs) & _). simpl in *. congruence.
    + exists e'. unfold ResolveSecretSharesAccusationsMessages. by rewrite He'.
  - destruct (resolvePublicKeySharePointsAccusationsMessages_Err judge messages _ Hin)
      as [e' He'].
    + intros d (_ & s & t & (k & Hk & Hs) & _). simpl in *. congruence.
    + exists e'. unfold ResolvePublicKeySharePointsAccusationsMessages. by rewrite He'.
Qed.

(** C7.  When the messages hold an accusation in which the current member is
    the accuser or the accused, Phase 5 and Phase 9 return an error and no
    list of disqualified members, and the member state after the call is the
    state before it. *)
Theorem judge_in_dispute_is_an_error (judge : Member)
    (accusation : MemberID * MemberID * PrivateKey) :
  ID judge = accusation.1.1 \/ ID judge = accusation.1.2 ->
  (forall messages, accusation ∈ secretSharesAccusations messages ->
     exists e, ResolveSecretSharesAccusationsMessages judge messages
               = (judge, Err e)) /\
  (forall messages, accusation ∈ pointsAccusations messages ->
     exists e, ResolvePublicKeySharePointsAccusationsMessages judge messages
               = (judge, Err e)).
Proof.
  destruct accusation as [[accuser accused] key]. simpl. intros Hparty.
  split; intros messages Hin.
  - destruct (resolveSecretSharesAccusationsMessages_Err judge messages _ Hin)
      as [e' He'].
    + intros d ([? ?] & _). by destruct Hparty.
    + exists e'. unfold ResolveSecretSharesAccusationsMessages. by rewrite He'.
  - destruct (resolvePublicKeySharePointsAccusationsMessages_Err judge messages _ Hin)
      as [e' He'].
    + intros d ([? ?] & _). by destruct Hparty.
    + exists e'. unfold ResolvePublicKeySharePointsAccusationsMessages. by rewrite He'.
Qed.

End Resolution.

Lemma shares_accusation_verdicts_witness :
  (ResolveSecretSharesAccusationsMessages judge3 [accusationsOf1]).2
    = Ok [1%N; 4%N] /\
  Forall2 (sharesVerdict judge3)
    (secretSharesAccusations [accusationsOf1]) [1%N; 4%N].
Proof.
  assert (H : (ResolveSecretSharesAccusationsMessages judge3 [accusationsOf1]).2
              = Ok [1%N; 4%N]) by (vm_compute; reflexivity).
  split; [exact H|].
  exact (proj1 (shares_accusation_verdicts judge3 [accusationsOf1] [1%N; 4%N]) H).
Defined.

(** C5 as claimed fails: member 1 accuses member 2 and reveals the key [13],
    which is not the private half of the public key [84] it broadcast for
    member 2; the recovered symmetric key does not open the shares member 2
    sealed for member 1, and both resolutions return an error instead of a
    list that holds the accuser. *)
Lemma wrong_key_accuser_not_disqualified :
  ephemeralPublicKeys publicKeysOf1 !! 2%N = Some 84 /\ 84 <> 7 * 13 /\
  recoverSymmetricKey (evidenceLog judge3) 2%N 1%N 13 = Ok 1911 /\
  recoverShares (evidenceLog judge3) 2%N 1%N 1911 = Err ErrCannotDecryptShareS /\
  ResolveSecretSharesAccusationsMessages judge3 [wrongKeyAccusationOf1]
    = (judge3, Err (ErrCouldNotDecryptShares ErrCannotDecryptShareS)) /\
  ResolvePublicKeySharePointsAccusationsMessages judge3 [wrongKeyPointsAccusationOf1]
    = (judge3, Err (ErrCouldNotDecryptShareSOf ErrCannotDecryptShareS)) /\
  ~ (exists dq,
       (ResolveSecretSharesAccusationsMessages judge3 [wrongKeyAccusationOf1]).2
         = Ok dq /\ 1%N ∈ dq) /\
  ~ (exists dq,
       (ResolvePublicKeySharePointsAccusationsMessages judge3
          [wrongKeyPointsAccusationOf1]).2 = Ok dq /\ 1%N ∈ dq).
Proof.
  repeat split; try (vm_compute; reflexivity); try (intros [dq [H _]]; vm_compute in H; discriminate H).
  lia.
Qed.

Lemma undecryptable_accusation_is_an_error_witness :
  exists e', ResolveSecretSharesAccusationsMessages judge3 [wrongKeyAccusationOf1]
             = (judge3, Err e').
Proof.
  apply (proj1 (undecryptable_accusation_is_an_error judge3 (1%N, 2%N, 13) 1911
                  ErrCannotDecryptShareS
                  ltac:(vm_compute; reflexivity) ltac:(vm_compute; reflexivity))).
  vm_compute. apply list_elem_of_here.
Defined.

Lemma judge_in_dispute_is_an_error_witness :
  (exists e, ResolveSecretSharesAccusationsMessages judge3 [accusationAgainst3]
             = (judge3, Err e)) /\
  (exists e, ResolvePublicKeySharePointsAccusationsMessages judge3
               [pointsAccusationAgainst3] = (judge3, Err e)).
Proof.
  destruct (judge_in_dispute_is_an_error judge3 (1%N, 3%N, 13)
              ltac:(right; reflexivity)) as [H5 H9].
  split.
  - apply H5. vm_compute. apply list_elem_of_further, list_elem_of_here.
  - apply H9. vm_compute. apply list_elem_of_further, list_elem_of_here.
Defined.

Section SharesVerification.

Context `{Eph : Ephemeral}.

Lemma findSharesMessage_unpaired cvm accused sharesMessages commitmentsMessage :
  hasSharesMessage sharesMessages commitmentsMessage = false ->
  findSharesMessage cvm accused sharesMessages commitmentsMessage =
  (cvm, Err (ErrCannotFindSharesMessage (commitmentsSenderID commitmentsMessage))).
Proof.
  unfold hasSharesMessage.
  induction sharesMessages as [|sharesMessage rest IH]; simpl; [done|].
  intros [Hne Hrest]%orb_false_iff. rewrite Hne. by apply IH.
Qed.

Lemma findSharesMessage_Ok cvm accused sharesMessages commitmentsMessage cvm' accused' :
  findSharesMessage cvm accused sharesMessages commitmentsMessage
    = (cvm', Ok accused') ->
  hasSharesMessage sharesMessages commitmentsMessage = true.
Proof.
  intros Hfind.
  destruct (hasSharesMessage sharesMessages commitmentsMessage) eqn:Hhas; [done|].
  rewrite findSharesMessage_unpaired in Hfind by done. discriminate.
Qed.

Lemma findSharesMessage_filter cvm accused sharesMessages commitmentsMessage keep :
  (forall sharesMessage,
     sharesSenderID sharesMessage = commitmentsSenderID commitmentsMessage ->
     keep sharesMessage = true) ->
  findSharesMessage cvm accused (List.filter keep sharesMessages) commitmentsMessage =
  findSharesMessage cvm accused sharesMessages commitmentsMessage.
Proof.
  intros Hkeep.
  induction sharesMessages as [|sharesMessage rest IH]; simpl; [done|].
  destruct (N.eqb_spec (sharesSenderID sharesMessage)
              (commitmentsSenderID commitmentsMessage)) as [Heq|Hne].
  - rewrite (Hkeep _ Heq). simpl. by rewrite (proj2 (N.eqb_eq _ _) Heq).
  - destruct (keep sharesMessage); simpl; [|done].
    by rewrite (proj2 (N.eqb_neq _ _) Hne).
Qed.

Lemma verifyFrom_Ok_paired cvm accused sharesMessages commitmentsMessages cvm' accused' :
  verifyReceivedSharesAndCommitmentsMessages_from cvm accused
    sharesMessages commitmentsMessages = (cvm', Ok accused') ->
  forallb (hasSharesMessage sharesMessages) commitmentsMessages = true.
Proof.
  revert cvm accused.
  induction commitmentsMessages as [|commitmentsMessage rest IH];
    intros cvm accused; simpl; [done|].
  destruct (findSharesMessage cvm accused sharesMessages commitmentsMessage)
    as [cvm1 [accused1|e|]] eqn:Hfind; [|done..].
  intros Hrest. apply findSharesMessage_Ok in Hfind as ->. simpl. by eapply IH.
Qed.

Lemma verifyFrom_app cvm accused sharesMessages before after :
  verifyReceivedSharesAndCommitmentsMessages_from cvm accused sharesMessages
    (before ++ after) =
  match verifyReceivedSharesAndCommitmentsMessages_from cvm accused
          sharesMessages before with
  | (cvm', Ok accused') =>
      verifyReceivedSharesAndCommitmentsMessages_from cvm' accused'
        sharesMessages after
  | failure => failure
  end.
Proof.
  revert cvm accused. induction before as [|commitmentsMessage rest IH];
    intros cvm accused; simpl; [done|].
  destruct (findSharesMessage cvm accused sharesMessages commitmentsMessage)
    as [cvm1 [accused1|e|]]; [apply IH|done..].
Qed.

Lemma verifyFrom_filter cvm accused sharesMessages commitmentsMessages keep :
  (forall sharesMessage,
     hasCommitmentsMessage commitmentsMessages sharesMessage = true ->
     keep sharesMessage = true) ->
  verifyReceivedSharesAndCommitmentsMessages_from cvm accused
    (List.filter keep sharesMessages) commitmentsMessages =
  verifyReceivedSharesAndCommitmentsMessages_from cvm accused
    sharesMessages commitmentsMessages.
Proof.
  revert cvm accused.
  induction commitmentsMessages as [|commitmentsMessage rest IH];
    intros cvm accused Hkeep; simpl; [done|].
  rewrite findSharesMessage_filter.
  - destruct (findSharesMessage cvm accused sharesMessages commitmentsMessage)
      as [cvm1 [accused1|e|]]; [|done..].
    apply IH. intros sharesMessage Hhas. apply Hkeep.
    unfold hasCommitmentsMessage in *. simpl. rewrite Hhas. apply orb_true_r.
  - intros sharesMessage Heq. apply Hkeep.
    unfold hasCommitmentsMessage. simpl.
    by rewrite (proj2 (N.eqb_eq _ _) Heq).
Qed.

(** C8 (amended).  A commitments message with no shares message from the
    same sender makes [VerifyReceivedSharesAndCommitmentsMessages] fail: no
    accusations message is returned, and the outcome is the
    cannot-find-shares-message error for that sender when the commitments
    messages before it were processed.  A shares message with no commitments
    message from the same sender is ignored: dropping every such message
    from the input changes nothing. *)
Theorem unpaired_commitments_fail_unpaired_shares_ignored (cvm : Member)
    (sharesMessages : list PeerSharesMessage)
    (commitmentsMessages : list MemberCommitmentsMessage) :
  (forallb (hasSharesMessage sharesMessages) commitmentsMessages = false ->
   forall message,
     (VerifyReceivedSharesAndCommitmentsMessages cvm sharesMessages
        commitmentsMessages).2 <> Ok message) /\
  (forall before unpaired after cvm' accused,
     commitmentsMessages = before ++ unpaired :: after ->
     hasSharesMessage sharesMessages unpaired = false ->
     verifyReceivedSharesAndCommitmentsMessages_from cvm ∅ sharesMessages before
       = (cvm', Ok accused) ->
     VerifyReceivedSharesAndCommitmentsMessages cvm sharesMessages
       commitmentsMessages
     = (cvm', Err (ErrCannotFindSharesMessage (commitmentsSenderID unpaired)))) /\
  VerifyReceivedSharesAndCommitmentsMessages cvm
    (List.filter (hasCommitmentsMessage commitmentsMessages) sharesMessages)
    commitmentsMessages
  = VerifyReceivedSharesAndCommitmentsMessages cvm sharesMessages
      commitmentsMessages.
Proof.
  split; [|split].
  - intros Hunpaired message. unfold VerifyReceivedSharesAndCommitmentsMessages.
    destruct (verifyReceivedSharesAndCommitmentsMessages_from cvm ∅ sharesMessages
                commitmentsMessages) as [cvm' [accused|e|]] eqn:Hrun; [|done..].
    apply verifyFrom_Ok_paired in Hrun. congruence.
  - intros before unpaired after cvm' accused -> Hunpaired Hbefore.
    unfold VerifyReceivedSharesAndCommitmentsMessages.
    rewrite verifyFrom_app, Hbefore. simpl.
    by rewrite findSharesMessage_unpaired.
  - unfold VerifyReceivedSharesAndCommitmentsMessages.
    by rewrite verifyFrom_filter.
Qed.

End SharesVerification.

(** C8 as claimed fails: the judge receives the shares messages of members
    2 and 4 and only the commitments message of member 2; the call returns
    an accusations message, with no accusation, and the shares message of
    member 4 is dropped. *)
Lemma unpaired_shares_message_is_dropped :
  hasCommitmentsMessage [commitmentsOf2] (sharesOf4 : @PeerSharesMessage smallEphemeral)
    = false /\
  (VerifyReceivedSharesAndCommitmentsMessages judge3
     [sharesOf2; sharesOf4] [commitmentsOf2]).2
  = Ok (@mkSecretSharesAccusationsMessage smallEphemeral 3%N []) /\
  ~ (exists e,
       (VerifyReceivedSharesAndCommitmentsMessages judge3
          [sharesOf2; sharesOf4] [commitmentsOf2]).2 = Err e).
Proof.
  split; [vm_compute; reflexivity|]. split; [vm_compute; reflexivity|].
  intros [e He]. vm_compute in He. discriminate He.
Qed.

Lemma unpaired_commitments_fail_unpaired_shares_ignored_witness :
  VerifyReceivedSharesAndCommitmentsMessages judge3 [sharesOf4] [commitmentsOf2]
  = (judge3, Err (ErrCannotFindSharesMessage 2%N)).
Proof.
  destruct (unpaired_commitments_fail_unpaired_shares_ignored judge3
              ([sharesOf4] : list (@PeerSharesMessage smallEphemeral))
              [commitmentsOf2]) as (_ & Hfirst & _).
  apply (Hfirst [] commitmentsOf2 [] judge3 ∅); reflexivity.
Defined.

Lemma last_of_sender {A} (sender : A -> MemberID) (l : list A) (x : A) :
  x ∈ l ->
  exists earlier last later,
    l = earlier ++ last :: later /\
    sender last = sender x /\
    ~ sender last ∈ map sender later.
Proof.
  revert x. induction l as [|first rest IH]; intros x Hin; [by inversion Hin|].
  destruct (decide (sender x ∈ map sender rest)) as [Hlater|Hlater].
  - apply list_elem_of_fmap in Hlater as (y & Heq & Hin').
    destruct (IH y Hin') as (earlier & last & later & -> & Hlast & Hnot).
    exists (first :: earlier), last, later. split; [done|]. split; [congruence|done].
  - apply elem_of_cons in Hin as [->|Hin].
    + exists [], first, rest. done.
    + exfalso. apply Hlater. apply list_elem_of_fmap. by exists x.
Qed.

Section SymmetricKeys.

Context `{Eph : Ephemeral}.

Lemma GenerateSymmetricKeys_invariant sm messages sm' outcome :
  GenerateSymmetricKeys sm messages = (sm', outcome) ->
  ID sm' = ID sm /\ ephemeralKeyPairs sm' = ephemeralKeyPairs sm.
Proof.
  revert sm. induction messages as [|message rest IH]; intros sm; simpl.
  - by intros [= <- _].
  - destruct (ephemeralKeyPairs sm !! ephemeralSenderID message) as [keyPair|];
      [|by intros [= <- _]].
    destruct (ephemeralPublicKeys message !! ID sm) as [publicKey|];
      [|by intros [= <- _]].
    intros Hrest. by apply IH in Hrest as [-> ->].
Qed.

Lemma PutEphemeralMessage_lookup log message sender :
  ephemeralPublicKeyMessage (PutEphemeralMessage log message) sender =
  match ephemeralPublicKeyMessage log sender with
  | Some recorded => Some recorded
  | None => if N.eqb (ephemeralSenderID message) sender then Some message else None
  end.
Proof.
  unfold ephemeralPublicKeyMessage, PutEphemeralMessage.
  destruct (N.eqb_spec (ephemeralSenderID message) sender) as [<-|Hne].
  - destruct (pubKeyMessageLog log !! ephemeralSenderID message) eqn:Hlog.
    + by rewrite Hlog.
    + simpl. by rewrite lookup_insert_eq.
  - destruct (pubKeyMessageLog log !! ephemeralSenderID message) eqn:Hlog.
    + by destruct (pubKeyMessageLog log !! sender).
    + simpl. rewrite lookup_insert_ne by done.
      by destruct (pubKeyMessageLog log !! sender).
Qed.

(** A successful run records nothing for a sender without key pair. *)
Lemma GenerateSymmetricKeys_Ok_log sm messages sm' sender :
  GenerateSymmetricKeys sm messages = (sm', Ok tt) ->
  ephemeralKeyPairs sm !! sender = None ->
  ephemeralPublicKeyMessage (evidenceLog sm') sender
  = ephemeralPublicKeyMessage (evidenceLog sm) sender.
Proof.
  revert sm. induction messages as [|message rest IH]; intros sm; simpl.
  - by intros [= <-].
  - destruct (ephemeralKeyPairs sm !! ephemeralSenderID message) as [keyPair|] eqn:Hpair;
      [|done].
    destruct (ephemeralPublicKeys message !! ID sm) as [publicKey|]; [|done].
    intros Hrest Hnone. rewrite (IH _ Hrest) by done. simpl.
    rewrite PutEphemeralMessage_lookup.
    destruct (N.eqb_spec (ephemeralSenderID message) sender) as [<-|Hne];
      [congruence|]. by destruct (ephemeralPublicKeyMessage (evidenceLog sm) sender).
Qed.

(** After a successful run every message has a key stored for its sender,
    and the key stored for a sender is the one derived from its last
    message. *)
Lemma GenerateSymmetricKeys_Ok_keys sm messages sm' :
  GenerateSymmetricKeys sm messages = (sm', Ok tt) ->
  (forall sender, ~ sender ∈ map ephemeralSenderID messages ->
     symmetricKeys sm' !! sender = symmetricKeys sm !! sender) /\
  (forall earlier message later,
     messages = earlier ++ message :: later ->
     ~ ephemeralSenderID message ∈ map ephemeralSenderID later ->
     exists keyPair publicKey,
       ephemeralKeyPairs sm !! ephemeralSenderID message = Some keyPair /\
       ephemeralPublicKeys message !! ID sm = Some publicKey /\
       symmetricKeys sm' !! ephemeralSenderID message
       = Some (Ecdh (privateKey keyPair) publicKey)).
Proof.
  revert sm. induction messages as [|first rest IH]; intros sm; simpl.
  - intros [= <-]. split; [done|]. intros [|? ?] ? ? ?; done.
  - destruct (ephemeralKeyPairs sm !! ephemeralSenderID first) as [keyPair|] eqn:Hpair;
      [|done].
    destruct (ephemeralPublicKeys first !! ID sm) as [publicKey|] eqn:Hpub; [|done].
    intros Hrest. destruct (IH _ Hrest) as [Hother Hlast]. split.
    + intros sender Hnot. rewrite Hother.
      * simpl. apply lookup_insert_ne. intros Heq. apply Hnot. rewrite <- Heq. apply list_elem_of_here.
      * intros Hin. apply Hnot. by apply list_elem_of_further.
    + intros [|first' earlier] message later Heq Hnot; simplify_eq/=.
      * exists keyPair, publicKey. split; [done|]. split; [done|].
        rewrite Hother by done. simpl. apply lookup_insert_eq.
      * destruct (Hlast earlier message later eq_refl Hnot)
          as (keyPair' & publicKey' & ? & ? & ?).
        by exists keyPair', publicKey'.
Qed.

Lemma GenerateSymmetricKeys_Err sm messages sm' e :
  GenerateSymmetricKeys sm messages = (sm', Err e) ->
  exists before failing after smB,
    messages = before ++ failing :: after /\
    GenerateSymmetricKeys sm before = (smB, Ok tt) /\
    ephemeralKeyPairs smB !! ephemeralSenderID failing = None /\
    e = ErrNoKeyPair (ephemeralSenderID failing) /\
    sm' = set_evidenceLog (PutEphemeralMessage (evidenceLog smB) failing) smB.
Proof.
  revert sm. induction messages as [|first rest IH]; intros sm; simpl; [done|].
  destruct (ephemeralKeyPairs sm !! ephemeralSenderID first) as [keyPair|] eqn:Hpair.
  - destruct (ephemeralPublicKeys first !! ID sm) as [publicKey|] eqn:Hpub; [|done].
    intros Hrest.
    destruct (IH _ Hrest) as (before & failing & after & smB & -> & Hbefore & ? & ? & ?).
    exists (first :: before), failing, after, smB. split; [done|].
    split; [|done]. simpl. by rewrite Hpair, Hpub.
  - intros [= <- <-]. exists [], first, rest, sm. done.
Qed.

(** C9.  When [GenerateSymmetricKeys] returns the missing-key-pair error
    for a member, the messages split into those processed before, the
    failing message of that member and the rest; the final state is the
    state reached on the messages before, with the failing message put into
    the evidence log.  So the log holds a message of the failing sender (the
    failing message itself when the log held none of that sender before the
    call), and the symmetric keys derived from the messages before are
    stored. *)
Theorem GenerateSymmetricKeys_not_atomic (sm sm' : Member)
    (messages : list EphemeralPublicKeyMessage) (member : MemberID) :
  GenerateSymmetricKeys sm messages = (sm', Err (ErrNoKeyPair member)) ->
  exists before failing after smB,
    messages = before ++ failing :: after /\
    ephemeralSenderID failing = member /\
    GenerateSymmetricKeys sm before = (smB, Ok tt) /\
    sm' = set_evidenceLog (PutEphemeralMessage (evidenceLog smB) failing) smB /\
    is_Some (ephemeralPublicKeyMessage (evidenceLog sm') member) /\
    (ephemeralPublicKeyMessage (evidenceLog sm) member = None ->
     ephemeralPublicKeyMessage (evidenceLog sm') member = Some failing) /\
    symmetricKeys sm' = symmetricKeys smB /\
    (forall earlier message later,
       before = earlier ++ message :: later ->
       ~ ephemeralSenderID message ∈ map ephemeralSenderID later ->
       exists keyPair publicKey,
         ephemeralKeyPairs sm !! ephemeralSenderID message = Some keyPair /\
         ephemeralPublicKeys message !! ID sm = Some publicKey /\
         symmetricKeys sm' !! ephemeralSenderID message
         = Some (Ecdh (privateKey keyPair) publicKey)) /\
    (forall message, message ∈ before ->
       is_Some (symmetricKeys sm' !! ephemeralSenderID message)).
Proof.
  intros Hrun.
  destruct (GenerateSymmetricKeys_Err _ _ _ _ Hrun)
    as (before & failing & after & smB & -> & Hbefore & Hnone & [= ->] & ->).
  exists before, failing, after, smB.
  destruct (GenerateSymmetricKeys_invariant _ _ _ _ Hbefore) as [HID Hpairs].
  destruct (GenerateSymmetricKeys_Ok_keys _ _ _ Hbefore) as [Hother Hlast].
  rewrite Hpairs in Hnone.
  assert (Hlog : forall sender,
    ephemeralPublicKeyMessage
      (evidenceLog (set_evidenceLog (PutEphemeralMessage (evidenceLog smB) failing) smB))
      sender
    = match ephemeralPublicKeyMessage (evidenceLog smB) sender with
      | Some recorded => Some recorded
      | None => if N.eqb (ephemeralSenderID failing) sender then Some failing else None
      end).
  { intros sender. simpl. apply PutEphemeralMessage_lookup. }
  repeat split; try done.
  - rewrite Hlog, N.eqb_refl.
    by destruct (ephemeralPublicKeyMessage (evidenceLog smB) _).
  - intros Hempty. rewrite Hlog, N.eqb_refl.
    by rewrite (GenerateSymmetricKeys_Ok_log _ _ _ _ Hbefore Hnone), Hempty.
  - intros message Hin.
    assert (Hsplit : exists earlier last later,
              before = earlier ++ last :: later /\
              ephemeralSenderID last = ephemeralSenderID message /\
              ~ ephemeralSenderID last ∈ map ephemeralSenderID later).
    { by apply last_of_sender. }
    destruct Hsplit as (earlier & last & later & Heq & Hsame & Hnot).
    destruct (Hlast earlier last later Heq Hnot) as (keyPair & publicKey & _ & _ & Hkey).
    simpl. rewrite <- Hsame. by rewrite Hkey.
Qed.

End SymmetricKeys.

Lemma GenerateSymmetricKeys_not_atomic_witness :
  exists sm',
    GenerateSymmetricKeys judge3 [publicKeysOf2; publicKeysOf5; publicKeysOf1]
      = (sm', Err (ErrNoKeyPair 5%N)) /\
    ephemeralPublicKeyMessage (evidenceLog sm') 5%N = Some publicKeysOf5 /\
    symmetricKeys sm' !! 2%N = Some 5152.
Proof.
  eexists. split; [vm_compute; reflexivity|].
  destruct (GenerateSymmetricKeys_not_atomic judge3 _
              [publicKeysOf2; publicKeysOf5; publicKeysOf1] 5%N
              ltac:(vm_compute; reflexivity))
    as (before & failing & after & smB & Hsplit & Hsender & Hbefore & Hfinal & Hlogged
        & Hfresh & Hkeys & Hlast & Hall).
  split; vm_compute; reflexivity.
Defined.

Section PointsVerification.

Context `{Eph : Ephemeral}.



End PointsVerification.



(** ** The Lagrange coefficients *)

Lemma reducedDifference_mod q l k :
  Int l < q -> Int k < q ->
  reducedDifference q l k = (Int l - Int k) mod q /\
  0 <= reducedDifference q l k < q.
Proof.
  intros Hl Hk. pose proof (Int_nonneg l). pose proof (Int_nonneg k).
  unfold reducedDifference. cbv zeta.
  destruct (Z.ltb_spec (Int l - Int k) 0).
  - split; [|lia]. apply (Z.mod_unique _ _ (-1)); lia.
  - split; [|lia]. symmetry. apply Z.mod_small. lia.
Qed.

Lemma reducedDifference_nonzero q l k :
  Int l < q -> Int k < q -> l <> k -> 0 < reducedDifference q l k < q.
Proof.
  intros Hl Hk Hne. pose proof (Int_nonneg l). pose proof (Int_nonneg k).
  assert (Int l <> Int k) by (unfold Int; lia).
  unfold reducedDifference. cbv zeta.
  destruct (Z.ltb_spec (Int l - Int k) 0); lia.
Qed.

Lemma ModInverse_difference q l k :
  Z.prime q -> Int l < q -> Int k < q -> l <> k ->
  big.ModInverse (Int l - Int k) q
  = Some (Z.invmod (reducedDifference q l k) q).
Proof.
  intros Hq Hl Hk Hne. pose proof (Z.prime_ge_2 _ Hq) as Hq2.
  destruct (reducedDifference_mod q l k Hl Hk) as [Hmod _].
  pose proof (reducedDifference_nonzero q l k Hl Hk Hne) as Hrange.
  unfold big.ModInverse. rewrite Z.abs_eq by lia.
  assert (Hg : (if Int l - Int k <? 0 then (Int l - Int k) mod q else Int l - Int k)
               = reducedDifference q l k).
  { unfold reducedDifference in *. cbv zeta in *.
    destruct (Z.ltb_spec (Int l - Int k) 0); [by rewrite <- Hmod|done]. }
  rewrite Hg.
  assert (Hcop : Z.coprime (reducedDifference q l k) q).
  { symmetry. apply Z.coprime_prime_small; [done|lia]. }
  unfold Z.coprime in Hcop. rewrite Hcop. done.
Qed.

Lemma invmod_difference q l k :
  Z.prime q -> Int l < q -> Int k < q -> l <> k ->
  (reducedDifference q l k * Z.invmod (reducedDifference q l k) q) mod q = 1.
Proof.
  intros Hq Hl Hk Hne.
  pose proof (reducedDifference_nonzero q l k Hl Hk Hne) as Hrange.
  rewrite Z.mul_comm. apply Z.invmod_prime; [done|].
  rewrite Z.mod_small by lia. lia.
Qed.

Lemma calculateLagrangeCoefficient_from_spec cfg k peerIDs acc :
  Z.prime (Q cfg) -> Int k < Q cfg ->
  Forall (fun l => Int l < Q cfg) peerIDs ->
  0 <= acc < Q cfg ->
  calculateLagrangeCoefficient_from cfg k peerIDs acc
  = Some ((acc * Zprod (map (fun l => Int l * Z.invmod (reducedDifference (Q cfg) l k) (Q cfg))
                          (otherPeers k peerIDs))) mod Q cfg).
Proof.
  intros Hq Hk Hpeers. pose proof (Z.prime_ge_2 _ Hq) as Hq2. revert acc.
  induction Hpeers as [|l rest Hl _ IH]; intros acc Hacc; simpl.
  - rewrite Z.mul_1_r, Z.mod_small by done. done.
  - destruct (N.eqb_spec l k) as [->|Hne]; simpl; [by apply IH|].
    rewrite ModInverse_difference by done.
    rewrite IH by (apply Mod_range; lia).
    rewrite !Mod_pos by lia. f_equal.
    rewrite Z.mul_mod_idemp_r, Z.mul_mod_idemp_l by lia. f_equal. lia.
Qed.

(** C4.  For a prime [Q], a member [k] and peer identifiers below [Q],
    [calculateLagrangeCoefficient] returns the product over the peers [l]
    other than [k] of [l * (l - k)^-1], reduced modulo [Q] and so in
    [[0, Q)]; for each such [l] the difference that is inverted is
    [(l - k) mod Q], that is [l - k] with [Q] added when it is negative, and
    the inverse used is its inverse modulo [Q]. *)
Theorem calculateLagrangeCoefficient_correct (cfg : DKG) (k : MemberID)
    (peerIDs : list MemberID) :
  Z.prime (Q cfg) -> Int k < Q cfg ->
  Forall (fun l => Int l < Q cfg) peerIDs ->
  calculateLagrangeCoefficient cfg k peerIDs
    = Some (lagrangeCoefficient (Q cfg) k peerIDs) /\
  0 <= lagrangeCoefficient (Q cfg) k peerIDs < Q cfg /\
  (forall l, l ∈ otherPeers k peerIDs <-> l ∈ peerIDs /\ l <> k) /\
  forall l, l ∈ peerIDs -> l <> k ->
    big.ModInverse (Int l - Int k) (Q cfg)
      = Some (Z.invmod (reducedDifference (Q cfg) l k) (Q cfg)) /\
    reducedDifference (Q cfg) l k = (Int l - Int k) mod Q cfg /\
    (reducedDifference (Q cfg) l k
     * Z.invmod (reducedDifference (Q cfg) l k) (Q cfg)) mod Q cfg = 1.
Proof.
  intros Hq Hk Hpeers. pose proof (Z.prime_ge_2 _ Hq) as Hq2.
  split; [|split; [|split]].
  - unfold calculateLagrangeCoefficient, lagrangeCoefficient.
    rewrite (calculateLagrangeCoefficient_from_spec cfg k peerIDs 1 Hq Hk Hpeers)
      by lia.
    by rewrite Z.mul_1_l.
  - apply Z.mod_pos_bound. lia.
  - intros l. unfold otherPeers. rewrite !list_elem_of_In, filter_In.
    rewrite negb_true_iff, N.eqb_neq. done.
  - intros l Hin Hne.
    assert (Hl : Int l < Q cfg).
    { rewrite Forall_forall in Hpeers. by apply Hpeers. }
    split; [by apply ModInverse_difference|].
    split; [by apply reducedDifference_mod|by apply invmod_difference].
Qed.

Lemma calculateLagrangeCoefficient_correct_witness :
  calculateLagrangeCoefficient smallConfig 2%N [1%N; 2%N; 3%N] = Some 8 /\
  lagrangeCoefficient 11 2%N [1%N; 2%N; 3%N] = 8.
Proof.
  destruct (calculateLagrangeCoefficient_correct smallConfig 2%N [1%N; 2%N; 3%N])
    as (Hrun & _).
  - split; [simpl; lia|]. intros n Hn Hdiv.
    assert (Hcases : n = 2 \/ n = 3 \/ n = 4 \/ n = 5 \/ n = 6 \/ n = 7 \/ n = 8
                     \/ n = 9 \/ n = 10) by (simpl in Hn; lia).
    destruct Hdiv as [c Hc]. simpl in Hc.
    destruct Hcases as [->|[->|[->|[->|[->|[->|[->|[->| ->]]]]]]]]; lia.
  - simpl. unfold Int. lia.
  - repeat constructor; simpl; unfold Int; lia.
  - split; [exact Hrun|reflexivity].
Defined.

(** ** Polynomials and their roots modulo a prime *)

Lemma eval_padd p q x : eval (padd p q) x = eval p x + eval q x.
Proof.
  revert q. induction p as [|a p IH]; intros [|b q]; simpl; rewrite ?IH; lia.
Qed.

Lemma length_padd p q : length (padd p q) = (length p `max` length q)%nat.
Proof.
  revert q. induction p as [|a p IH]; intros [|b q]; simpl; rewrite ?IH; lia.
Qed.

Lemma eval_pscale a p x : eval (pscale a p) x = a * eval p x.
Proof. induction p as [|b p IH]; simpl; rewrite ?IH; lia. Qed.

Lemma length_pscale a p : length (pscale a p) = length p.
Proof. apply length_map. Qed.

Lemma eval_plinear b p x : eval (plinear b p) x = (b - x) * eval p x.
Proof. unfold plinear. rewrite eval_padd. simpl. rewrite !eval_pscale. lia. Qed.

Lemma length_plinear b p : length (plinear b p) = S (length p).
Proof. unfold plinear. rewrite length_padd. simpl. rewrite !length_pscale. lia. Qed.

(** Division by [X - r]. *)
Lemma eval_factor c r :
  exists d, length d = pred (length c) /\
    forall x, eval c x = eval c r + (x - r) * eval d x.
Proof.
  induction c as [|a c (d & Hlen & Hd)].
  - exists []. split; [done|]. intros x. simpl. lia.
  - exists (match c with [] => [] | _ :: _ => eval c r :: d end). split.
    + destruct c; simpl in *; lia.
    + intros x.
      change (eval (a :: c) x) with (a + x * eval c x).
      change (eval (a :: c) r) with (a + r * eval c r).
      rewrite (Hd x). destruct c as [|b c].
      * destruct d; [simpl; lia|done].
      * remember (eval (b :: c) r) as v. cbn [eval]. lia.
Qed.

Lemma mod_mul_prime q a b :
  Z.prime q -> (a * b) mod q = 0 -> a mod q <> 0 -> b mod q = 0.
Proof.
  intros Hq Hab Ha. pose proof (Z.prime_ge_2 _ Hq).
  rewrite Z.mod_divide in * by lia.
  apply (Z.divide_prime_mul _ _ _ Hq) in Hab as [?|?]; done.
Qed.

(** A polynomial with more roots, pairwise distinct modulo a prime, than
    coefficients vanishes modulo that prime everywhere. *)
Lemma roots_force_zero q roots :
  Z.prime q -> distinctModulo q roots ->
  forall c, (length c <= length roots)%nat ->
    Forall (fun r => eval c r mod q = 0) roots ->
    forall x, eval c x mod q = 0.
Proof.
  intros Hq. pose proof (Z.prime_ge_2 _ Hq) as Hq2.
  induction roots as [|r roots IH]; intros Hdistinct c Hlen Hroots x.
  - destruct c; [|simpl in Hlen; lia]. simpl. apply Z.mod_0_l; lia.
  - destruct c as [|a c]; [apply Z.mod_0_l; lia|].
    destruct Hdistinct as [Hr Hdistinct].
    destruct (eval_factor (a :: c) r) as (d & Hd & Hfactor).
    apply Forall_cons in Hroots as [Hroot Hroots].
    assert (Hzero : forall y, eval d y mod q = 0).
    { apply IH; [done|simpl in *; lia|].
      rewrite Forall_forall in Hroots, Hr |- *. intros r' Hr'.
      apply (mod_mul_prime q (r' - r)); [done| |by apply Hr].
      specialize (Hroots r' Hr'). rewrite Hfactor in Hroots.
      rewrite <- Z.add_mod_idemp_l, Hroot, Z.add_0_l in Hroots by lia. done. }
    rewrite Hfactor. rewrite <- Z.add_mod_idemp_l, Hroot, Z.add_0_l by lia.
    rewrite <- Z.mul_mod_idemp_r, Hzero by lia.
    rewrite Z.mul_0_r. apply Z.mod_0_l; lia.
Qed.

(** *** The basis polynomials *)

Lemma eval_basis q k peerIDs x :
  eval (basis q k peerIDs) x
  = Zprod (map (fun l => Z.invmod (Int l - Int k) q * (Int l - x))
             (otherPeers k peerIDs)).
Proof.
  unfold basis. induction (otherPeers k peerIDs) as [|l rest IH]; simpl; [lia|].
  rewrite eval_pscale, eval_plinear, IH. unfold Zprod. lia.
Qed.

Lemma length_basis q k peerIDs :
  length (basis q k peerIDs) = S (length (otherPeers k peerIDs)).
Proof.
  unfold basis. induction (otherPeers k peerIDs) as [|l rest IH]; simpl; [done|].
  by rewrite length_pscale, length_plinear, IH.
Qed.

Lemma length_otherPeers k peerIDs :
  NoDup peerIDs -> k ∈ peerIDs ->
  S (length (otherPeers k peerIDs)) = length peerIDs.
Proof.
  unfold otherPeers. induction 1 as [|l rest Hfresh Hnodup IH]; intros Hin.
  - by apply elem_of_nil in Hin.
  - simpl. destruct (N.eqb_spec l k) as [->|Hne]; simpl.
    + f_equal. clear IH Hin Hnodup. induction rest as [|l rest IH]; [done|].
      apply not_elem_of_cons in Hfresh as [Hne Hfresh]. simpl.
      destruct (N.eqb_spec l k) as [->|_]; [done|]. simpl. by rewrite IH.
    + apply elem_of_cons in Hin as [->|Hin]; [done|]. by rewrite IH.
Qed.

Lemma Zprod_zero l : 0 ∈ l -> Zprod l = 0.
Proof.
  unfold Zprod. induction l as [|a l IH]; intros Hin; [by apply elem_of_nil in Hin|].
  simpl. apply elem_of_cons in Hin as [<-|Hin]; [lia|]. rewrite IH by done. lia.
Qed.

Lemma Zprod_ones q l :
  1 < q -> Forall (fun a => a mod q = 1) l -> Zprod l mod q = 1.
Proof.
  intros Hq. unfold Zprod. induction 1 as [|a l Ha _ IH]; simpl.
  - by apply Z.mod_1_l.
  - rewrite Z.mul_mod, Ha, IH by lia. rewrite Z.mul_1_l. by apply Z.mod_1_l.
Qed.

Lemma elem_of_otherPeers l k peerIDs :
  l ∈ otherPeers k peerIDs <-> l ∈ peerIDs /\ l <> k.
Proof.
  unfold otherPeers. rewrite !list_elem_of_In, filter_In.
  by rewrite negb_true_iff, N.eqb_neq.
Qed.

(** The basis polynomial of [k] vanishes at every other peer. *)
Lemma eval_basis_other q k j peerIDs :
  j ∈ peerIDs -> j <> k -> eval (basis q k peerIDs) (Int j) = 0.
Proof.
  intros Hin Hne. rewrite eval_basis. apply Zprod_zero.
  apply list_elem_of_fmap. exists j. split; [lia|]. by apply elem_of_otherPeers.
Qed.

(** The basis polynomial of [k] is [1] at [k], modulo the prime [q]. *)
Lemma eval_basis_self q k peerIDs :
  Z.prime q ->
  (forall l, l ∈ peerIDs -> l <> k -> (Int l - Int k) mod q <> 0) ->
  eval (basis q k peerIDs) (Int k) mod q = 1.
Proof.
  intros Hq Hdistinct. pose proof (Z.prime_ge_2 _ Hq).
  rewrite eval_basis. apply Zprod_ones; [lia|].
  rewrite Forall_forall. intros a (l & -> & [Hin Hne]%elem_of_otherPeers)%list_elem_of_fmap.
  apply Z.invmod_prime; [done|]. by apply Hdistinct.
Qed.

(** ** Interpolation at zero *)

Lemma ModInverse_prime q d :
  Z.prime q -> d mod q <> 0 -> big.ModInverse d q = Some (Z.invmod d q).
Proof.
  intros Hq Hd. pose proof (Z.prime_ge_2 _ Hq) as Hq2.
  unfold big.ModInverse. rewrite Z.abs_eq by lia.
  set (g := if d <? 0 then d mod q else d).
  assert (Hg : g mod q = d mod q).
  { subst g. destruct (d <? 0); [apply Z.mod_mod; lia|done]. }
  assert (Hinv : Z.invmod g q = Z.invmod d q).
  { by rewrite <- (Z.invmod_mod_l g), Hg, Z.invmod_mod_l. }
  assert (Hcop : Z.gcd g q = 1).
  { rewrite Z.gcd_comm. apply Z.coprime_prime_l; [done|].
    rewrite <- Z.mod_divide by lia. by rewrite Hg. }
  by rewrite Hcop, Hinv.
Qed.

Lemma calculateLagrangeCoefficient_from_basis cfg k peerIDs acc :
  Z.prime (Q cfg) ->
  (forall l, l ∈ peerIDs -> l <> k -> (Int l - Int k) mod Q cfg <> 0) ->
  0 <= acc < Q cfg ->
  calculateLagrangeCoefficient_from cfg k peerIDs acc
  = Some ((acc * eval (basis (Q cfg) k peerIDs) 0) mod Q cfg).
Proof.
  intros Hq. pose proof (Z.prime_ge_2 _ Hq) as Hq2. revert acc.
  induction peerIDs as [|l rest IH]; intros acc Hdistinct Hacc.
  - change (eval (basis (Q cfg) k []) 0) with 1.
    simpl. rewrite Z.mul_1_r, Z.mod_small by lia. done.
  - cbn [calculateLagrangeCoefficient_from].
    unfold basis, otherPeers in *. cbn [List.filter].
    destruct (N.eqb_spec l k) as [->|Hne]; cbn [negb].
    + apply IH; [|done]. intros l' Hl'. apply Hdistinct. by apply list_elem_of_further.
    + rewrite ModInverse_prime
        by (first [done | apply Hdistinct; [apply list_elem_of_here|done]]).
      rewrite IH.
      * cbn [foldr]. rewrite eval_pscale, eval_plinear.
        rewrite !Mod_pos by lia. f_equal.
        rewrite Z.mul_mod_idemp_r, Z.mul_mod_idemp_l by lia. f_equal. lia.
      * intros l' Hl'. apply Hdistinct. by apply list_elem_of_further.
      * apply Mod_range. lia.
Qed.

Lemma mod_add_mul_mod q a s b r :
  0 < q -> ((a + s * (b mod q)) mod q + r) mod q = (a + (s * b + r)) mod q.
Proof.
  intros Hq. rewrite Z.add_mod_idemp_l by lia. rewrite (Z.mod_eq b q) by lia.
  replace (a + s * (b - q * (b / q)) + r)
    with (a + (s * b + r) + (- (s * (b / q))) * q) by lia.
  apply Z.mod_add. lia.
Qed.

Lemma eval_interpolant q peerIDs entries x :
  eval (interpolant q peerIDs entries) x
  = Zsum (map (fun entry => entry.2 * eval (basis q entry.1 peerIDs) x) entries).
Proof.
  unfold interpolant, Zsum. induction entries as [|entry rest IH]; simpl; [done|].
  by rewrite eval_padd, eval_pscale, IH.
Qed.

Lemma reconstructIndividualPrivateKey_from_interpolant cfg peerIDs entries acc :
  Z.prime (Q cfg) ->
  (forall k l, k ∈ entries.*1 -> l ∈ peerIDs -> l <> k ->
     (Int l - Int k) mod Q cfg <> 0) ->
  0 <= acc < Q cfg ->
  reconstructIndividualPrivateKey_from cfg peerIDs entries acc
  = Some ((acc + eval (interpolant (Q cfg) peerIDs entries) 0) mod Q cfg).
Proof.
  intros Hq. pose proof (Z.prime_ge_2 _ Hq) as Hq2. revert acc.
  induction entries as [|[k s] rest IH]; intros acc Hdistinct Hacc.
  - simpl. rewrite Z.add_0_r, Z.mod_small by lia. done.
  - cbn [reconstructIndividualPrivateKey_from]. unfold calculateLagrangeCoefficient.
    rewrite calculateLagrangeCoefficient_from_basis; [|done| |lia].
    2: { intros l Hl Hne. apply Hdistinct; [apply list_elem_of_here|done..]. }
    rewrite IH.
    + unfold interpolant. cbn [foldr]. rewrite eval_padd, eval_pscale.
      cbn [fst snd]. rewrite Z.mul_1_l, !Mod_pos by lia. f_equal.
      apply mod_add_mul_mod. lia.
    + intros k' l Hk'. apply Hdistinct. by apply list_elem_of_further.
    + apply Mod_range. lia.
Qed.

Lemma Zsum_zero l : Forall (fun a => a = 0) l -> Zsum l = 0.
Proof. unfold Zsum. induction 1 as [|a l -> _ IH]; simpl; [done|]. by rewrite IH. Qed.

(** In a sum over entries with distinct keys, only the entry of [j] counts
    when every other term vanishes. *)
Lemma Zsum_single (g : MemberID -> Z) (entries : list (MemberID * Z)) j s :
  NoDup entries.*1 -> (j, s) ∈ entries ->
  (forall k, k ∈ entries.*1 -> k <> j -> g k = 0) ->
  Zsum (map (fun entry => entry.2 * g entry.1) entries) = s * g j.
Proof.
  induction entries as [|[k s'] rest IH]; intros Hnodup Hin Hzero.
  - by apply elem_of_nil in Hin.
  - cbn [fmap list_fmap fst] in Hnodup. apply NoDup_cons in Hnodup as [Hfresh Hnodup].
    unfold Zsum in *. cbn [map foldr fst snd].
    apply elem_of_cons in Hin as [[= <- <-]|Hin].
    + fold (Zsum (map (fun entry => entry.2 * g entry.1) rest)).
      rewrite Zsum_zero; [lia|].
      rewrite Forall_forall. intros a ([k' s''] & -> & Hk')%list_elem_of_fmap.
      cbn [fst snd]. rewrite Hzero; [lia| |].
      * apply list_elem_of_further. apply list_elem_of_fmap. by exists (k', s'').
      * intros ->. apply Hfresh. apply list_elem_of_fmap. by exists (j, s'').
    + rewrite IH; [|done|done|].
      * rewrite (Hzero k); [lia|apply list_elem_of_here|].
        intros ->. apply Hfresh. apply list_elem_of_fmap. by exists (j, s).
      * intros k' Hk'. apply Hzero. by apply list_elem_of_further.
Qed.

Lemma length_interpolant q peerIDs entries :
  NoDup peerIDs -> (forall k, k ∈ entries.*1 -> k ∈ peerIDs) ->
  (length (interpolant q peerIDs entries) <= length peerIDs)%nat.
Proof.
  intros Hnodup. unfold interpolant.
  induction entries as [|[k s] rest IH]; intros Hkeys; simpl; [lia|].
  rewrite length_padd, length_pscale, length_basis.
  rewrite length_otherPeers; [|done|apply Hkeys, list_elem_of_here].
  apply Nat.max_lub; [done|]. apply IH. intros k' Hk'. apply Hkeys.
  by apply list_elem_of_further.
Qed.

Lemma distinctModulo_Int q peerIDs :
  NoDup peerIDs ->
  (forall k l, k ∈ peerIDs -> l ∈ peerIDs -> l <> k -> (Int l - Int k) mod q <> 0) ->
  distinctModulo q (map Int peerIDs).
Proof.
  induction 1 as [|k rest Hfresh Hnodup IH]; intros Hdistinct; simpl; [done|].
  split.
  - rewrite Forall_forall. intros r (l & -> & Hl)%list_elem_of_fmap.
    apply Hdistinct; [apply list_elem_of_here|by apply list_elem_of_further|].
    by intros ->.
  - apply IH. intros k' l Hk' Hl. apply Hdistinct; by apply list_elem_of_further.
Qed.

(** The polynomial interpolating, at as many peers pairwise distinct modulo
    the prime [q] as [a] has coefficients or more, values congruent to those
    of [a], has the constant term of [a] modulo [q]. *)
Lemma interpolant_at_zero q peerIDs entries a :
  Z.prime q -> NoDup peerIDs -> entries.*1 ≡ₚ peerIDs ->
  (forall k l, k ∈ peerIDs -> l ∈ peerIDs -> l <> k -> (Int l - Int k) mod q <> 0) ->
  (length a <= length peerIDs)%nat ->
  (forall k s, (k, s) ∈ entries -> s mod q = eval a (Int k) mod q) ->
  eval (interpolant q peerIDs entries) 0 mod q = eval a 0 mod q.
Proof.
  intros Hq Hnodup Hperm Hdistinct Hlen Hshares.
  pose proof (Z.prime_ge_2 _ Hq) as Hq2.
  set (h := padd (interpolant q peerIDs entries) (pscale (-1) a)).
  assert (Hh : forall x, eval h x = eval (interpolant q peerIDs entries) x - eval a x).
  { intros x. unfold h. rewrite eval_padd, eval_pscale. lia. }
  assert (Hzero : forall x, eval h x mod q = 0).
  { apply (roots_force_zero q (map Int peerIDs)); [done|by apply distinctModulo_Int| |].
    - unfold h. rewrite length_padd, length_pscale, length_map.
      apply Nat.max_lub; [|done]. apply length_interpolant; [done|].
      intros k Hk. by rewrite <- Hperm.
    - rewrite Forall_forall. intros r (j & -> & Hj)%list_elem_of_fmap.
      assert (Hjs : exists s, (j, s) ∈ entries).
      { rewrite <- Hperm in Hj. apply list_elem_of_fmap in Hj as ([j' s] & -> & Hin).
        by exists s. }
      destruct Hjs as [s Hjs].
      rewrite Hh, eval_interpolant.
      rewrite (Zsum_single (fun k => eval (basis q k peerIDs) (Int j)) entries j s).
      + rewrite Zminus_mod, <- Z.mul_mod_idemp_r by lia.
        rewrite eval_basis_self; [|done|].
        * rewrite Z.mul_1_r, (Hshares j s Hjs), Z.sub_diag. apply Z.mod_0_l. lia.
        * intros l Hl Hne. by apply Hdistinct.
      + by rewrite Hperm.
      + done.
      + intros k Hk Hne. apply eval_basis_other; [done|]. by intros ->. }
  specialize (Hzero 0). rewrite Hh in Hzero.
  apply Z.cong_iff_0. done.
Qed.

(** ** Shares as values of a polynomial *)

Lemma sumpow_eval j k a : sumpow j k a = Int j ^ Z.of_nat k * eval a (Int j).
Proof.
  revert k. induction a as [|x a IH]; intros k; simpl; [lia|].
  rewrite IH, pow_eq, Nat2Z.inj_succ, Z.pow_succ_r by lia. lia.
Qed.

Lemma evaluateMemberShare_eval cfg j a :
  0 < Q cfg -> evaluateMemberShare cfg j a = eval a (Int j) mod Q cfg.
Proof.
  intros HQ. rewrite evaluateMemberShare_sumpow by done.
  rewrite sumpow_eval. simpl. by rewrite Z.mul_1_l.
Qed.

Lemma eval_zero a : eval a 0 = hd 0 a.
Proof. destruct a; simpl; lia. Qed.

(** ** Reconstruction of one key *)

Lemma reconstructIndividualPrivateKey_interpolant cfg peerIDs entries :
  Z.prime (Q cfg) ->
  (forall k l, k ∈ entries.*1 -> l ∈ peerIDs -> l <> k ->
     (Int l - Int k) mod Q cfg <> 0) ->
  reconstructIndividualPrivateKey cfg peerIDs entries
  = Some (eval (interpolant (Q cfg) peerIDs entries) 0 mod Q cfg).
Proof.
  intros Hq Hdistinct. pose proof (Z.prime_ge_2 _ Hq).
  unfold reconstructIndividualPrivateKey.
  rewrite reconstructIndividualPrivateKey_from_interpolant by first [done | lia].
  by rewrite Z.add_0_l.
Qed.

Lemma reconstructIndividualPrivateKey_exact cfg (shares : gmap N Z) a peerIDs entries :
  Z.prime (Q cfg) ->
  (forall k l, is_Some (shares !! k) -> is_Some (shares !! l) -> l <> k ->
     (Int l - Int k) mod Q cfg <> 0) ->
  (forall k s, shares !! k = Some s -> s = evaluateMemberShare cfg k a) ->
  (length a <= size shares)%nat ->
  peerIDs ≡ₚ (map_to_list shares).*1 ->
  entries ≡ₚ map_to_list shares ->
  reconstructIndividualPrivateKey cfg peerIDs entries = Some (hd 0 a mod Q cfg).
Proof.
  intros Hq Hdistinct Hhonest Hlen HpeerIDs Hentries.
  pose proof (Z.prime_ge_2 _ Hq).
  assert (Hkey : forall k, k ∈ peerIDs <-> is_Some (shares !! k)).
  { intros k. rewrite HpeerIDs, list_elem_of_fmap. split.
    - intros ([k' s] & -> & Hin). apply elem_of_map_to_list in Hin. by exists s.
    - intros [s Hs]. exists (k, s). split; [done|]. by apply elem_of_map_to_list. }
  assert (Hkeys : entries.*1 ≡ₚ peerIDs) by (by rewrite Hentries, HpeerIDs).
  rewrite reconstructIndividualPrivateKey_interpolant; [|done|].
  - f_equal. rewrite <- eval_zero.
    apply interpolant_at_zero; [done| |done| | |].
    + rewrite HpeerIDs. apply NoDup_fst_map_to_list.
    + intros k l Hk Hl. apply Hdistinct; by apply Hkey.
    + rewrite HpeerIDs, length_fmap, length_map_to_list. done.
    + intros k s Hin. rewrite Hentries in Hin. apply elem_of_map_to_list in Hin.
      rewrite (Hhonest k s Hin), evaluateMemberShare_eval by lia.
      apply Z.mod_mod. lia.
  - intros k l Hk Hl. rewrite Hkeys in Hk. apply Hdistinct; by apply Hkey.
Qed.

(** ** The loops over the records and over the private keys *)

Lemma reconstructIndividualPrivateKeys_from_app cfg before after keys :
  reconstructIndividualPrivateKeys_from cfg (before ++ after) keys =
  match reconstructIndividualPrivateKeys_from cfg before keys with
  | Some keys' => reconstructIndividualPrivateKeys_from cfg after keys'
  | None => None
  end.
Proof.
  revert keys. induction before as [|ds rest IH]; intros keys; simpl; [done|].
  destruct (reconstructIndividualPrivateKey _ _ _); [apply IH|done].
Qed.

Lemma reconstructIndividualPrivateKeys_from_Some cfg records keys :
  Forall (fun ds => is_Some (reconstructIndividualPrivateKey cfg
                               (map_to_list (peerSharesS ds)).*1
                               (map_to_list (peerSharesS ds)))) records ->
  exists keys',
    reconstructIndividualPrivateKeys_from cfg records keys = Some keys' /\
    forall m, ~ m ∈ map disqualifiedMemberID records -> keys' !! m = keys !! m.
Proof.
  intros Hall. revert keys. induction Hall as [|ds rest [v Hv] _ IH]; intros keys; simpl.
  - by exists keys.
  - rewrite Hv. destruct (IH (<[disqualifiedMemberID ds := v]> keys))
      as (keys' & Hrun & Hother).
    exists keys'. split; [done|]. intros m [Hne Hnot]%not_elem_of_cons.
    rewrite Hother by done. by apply lookup_insert_ne.
Qed.

Lemma reconstructIndividualPublicKeys_from_lookup cfg privateKeys keys m :
  NoDup privateKeys.*1 ->
  reconstructIndividualPublicKeys_from cfg privateKeys keys !! m =
  match list_to_map (M := gmap N Z) privateKeys !! m with
  | Some z => Some (big.Exp (G (vss cfg)) z (P cfg))
  | None => keys !! m
  end.
Proof.
  unfold reconstructIndividualPublicKeys_from. revert keys.
  induction privateKeys as [|[k z] rest IH]; intros keys Hnodup; simpl; [done|].
  cbn [fmap list_fmap fst] in Hnodup. apply NoDup_cons in Hnodup as [Hfresh Hnodup].
  rewrite IH by done.
  destruct (decide (k = m)) as [->|Hne].
  - rewrite (not_elem_of_list_to_map_1 (M := gmap N) rest m) by done.
    by rewrite !lookup_insert_eq.
  - by rewrite !lookup_insert_ne by done.
Qed.

Lemma ReconstructIndividualPublicKeys_order cfg (privateKeys : gmap N Z) order m :
  order ≡ₚ map_to_list privateKeys ->
  reconstructIndividualPublicKeys_from cfg order ∅ !! m
  = (fun z => big.Exp (G (vss cfg)) z (P cfg)) <$> privateKeys !! m.
Proof.
  intros Horder.
  assert (Hnodup : NoDup order.*1).
  { rewrite Horder. apply NoDup_fst_map_to_list. }
  rewrite reconstructIndividualPublicKeys_from_lookup by done.
  rewrite (list_to_map_proper (M := gmap N) _ _ Hnodup Horder), list_to_map_to_list.
  by destruct (privateKeys !! m).
Qed.
